(** * A proof-of-work ledger node: shallow embedding of [blockchain.py]

    The development follows the Python source function by function.  The
    [Blockchain] object is a record that is threaded through a small
    state-and-exception monad; Python exceptions are values of [exn]; the
    functions the program takes from its host ([hashlib], [json], [uuid],
    [time], [requests]) are inputs of the model.  [urllib.parse.urlparse],
    whose behaviour on concrete addresses is what [register_node] depends on,
    is written out in the module [urllib]. *)

From Stdlib Require Import ZArith String Ascii List DecimalString DecimalPos Lia.
From Stdlib Require Import Floats.PrimFloat.
From Equations Require Import Equations.
From stdpp Require Import gmap strings list.

Local Open Scope string_scope.
Local Open Scope Z_scope.

(** ** Python values, exceptions and results *)

(** The exceptions that the modelled code can raise. *)
Inductive exn : Type :=
| IndexError
| ValueError (msg : string)
| ConnectionError.

(** A call either returns a value or raises. *)
Inductive outcome (A : Type) : Type :=
| Ok (a : A)
| Raise (e : exn).
Arguments Ok {A} a.
Arguments Raise {A} e.

(** [previous_hash] is annotated [str], but the genesis block is created with
    the integer [1]: the field holds either shape. *)
Inductive pyval : Type :=
| PInt (z : Z)
| PStr (s : string).

(** Python truthiness, as used by [x or y]. *)
Definition truthy (v : pyval) : bool :=
  match v with
  | PInt z => negb (z =? 0)
  | PStr s => negb (s =? "")%string
  end.

(** Python [==] on these values: an [int] never equals a [str]. *)
Definition py_eqb (a b : pyval) : bool :=
  match a, b with
  | PInt x, PInt y => x =? y
  | PStr s, PStr t => (s =? t)%string
  | _, _ => false
  end.

(** [f"{n}"] for an [int]: its decimal rendering. *)
Definition str_of_int (n : Z) : string := NilZero.string_of_int (Z.to_int n).

(** [s[:n]] *)
Definition slice_to (n : nat) (s : string) : string := String.substring 0 n s.

(** ** [urllib.parse.urlparse]

    Written after CPython's [urlsplit]/[urlparse] for [str] input (strings
    are byte strings here, so the model is exact on ASCII addresses).  The
    validation of a bracketed IPv6 host beyond the balance of its brackets
    and the NFKC check of a non-ASCII network location are left out. *)
Module urllib.

Record ParseResult : Type := {
  scheme : string;
  netloc : string;
  path : string;
  params : string;
  query : string;
  fragment : string
}.

Definition code (c : ascii) : nat := nat_of_ascii c.

Definition isalpha (c : ascii) : bool :=
  ((65 <=? code c) && (code c <=? 90) || (97 <=? code c) && (code c <=? 122))%nat.

Definition isdigit (c : ascii) : bool := ((48 <=? code c) && (code c <=? 57))%nat.

(** membership in [scheme_chars] *)
Definition scheme_char (c : ascii) : bool :=
  isalpha c || isdigit c || (c =? "+")%char || (c =? "-")%char || (c =? ".")%char.

Definition lower_char (c : ascii) : ascii :=
  if ((65 <=? code c) && (code c <=? 90))%nat then ascii_of_nat (code c + 32) else c.

Fixpoint lower (s : string) : string :=
  match s with
  | EmptyString => EmptyString
  | String c s' => String (lower_char c) (lower s')
  end.

Fixpoint all_chars (p : ascii -> bool) (s : string) : bool :=
  match s with
  | EmptyString => true
  | String c s' => p c && all_chars p s'
  end.

Fixpoint contains (c : ascii) (s : string) : bool :=
  match s with
  | EmptyString => false
  | String d s' => (c =? d)%char || contains c s'
  end.

(** [s.lstrip(_WHATWG_C0_CONTROL_OR_SPACE)] *)
Fixpoint lstrip (s : string) : string :=
  match s with
  | EmptyString => EmptyString
  | String c s' => if (code c <=? 32)%nat then lstrip s' else s
  end.

(** removal of the bytes of [_UNSAFE_URL_BYTES_TO_REMOVE] (tab, CR, LF) *)
Fixpoint remove_unsafe (s : string) : string :=
  match s with
  | EmptyString => EmptyString
  | String c s' =>
      if ((code c =? 9) || (code c =? 10) || (code c =? 13))%nat
      then remove_unsafe s'
      else String c (remove_unsafe s')
  end.

(** [s.split(c, 1)] when [c] occurs in [s]: the text before the first
    occurrence and the text after it. *)
Fixpoint split_first (c : ascii) (s : string) : option (string * string) :=
  match s with
  | EmptyString => None
  | String d s' =>
      if (c =? d)%char then Some (EmptyString, s')
      else match split_first c s' with
           | Some (before, rest) => Some (String d before, rest)
           | None => None
           end
  end.

(** the same at the last occurrence ([rfind]) *)
Fixpoint split_last (c : ascii) (s : string) : option (string * string) :=
  match s with
  | EmptyString => None
  | String d s' =>
      match split_last c s' with
      | Some (before, rest) => Some (String d before, rest)
      | None => if (c =? d)%char then Some (EmptyString, s') else None
      end
  end.

(** [_splitnetloc(url, 2)] applied to the text after the leading [//]: the
    network location runs up to the first of [/], [?], [#]. *)
Fixpoint splitnetloc (s : string) : string * string :=
  match s with
  | EmptyString => (EmptyString, EmptyString)
  | String c s' =>
      if ((c =? "/") || (c =? "?") || (c =? "#"))%char then (EmptyString, s)
      else let '(domain, rest) := splitnetloc s' in (String c domain, rest)
  end.

Definition uses_params : list string :=
  [""; "ftp"; "hdl"; "prospero"; "http"; "imap"; "https"; "shttp"; "rtsp";
   "rtspu"; "sip"; "sips"; "mms"; "sftp"; "tel"]%string.

(** [_splitparams]: the first [;] of the last path segment. *)
Definition splitparams (url : string) : string * string :=
  match split_last "/" url with
  | Some (dir, seg) =>
      match split_first ";" seg with
      | Some (before, after) => (dir ++ "/" ++ before, after)
      | None => (url, EmptyString)
      end
  | None =>
      match split_first ";" url with
      | Some (before, after) => (before, after)
      | None => (url, EmptyString)
      end
  end.

(** the scheme, when the text before the first [:] is one *)
Definition split_scheme (url : string) : string * string :=
  match url, split_first ":" url with
  | String c0 _, Some (String p0 ps, rest) =>
      if isalpha c0 && all_chars scheme_char (String p0 ps)
      then (lower (String p0 ps), rest)
      else (EmptyString, url)
  | _, _ => (EmptyString, url)
  end.

Definition urlparse (address : string) : outcome ParseResult :=
  let url := remove_unsafe (lstrip address) in
  let '(scheme, url) := split_scheme url in
  let '(netloc, url) :=
    match url with
    | String "/" (String "/" body) => splitnetloc body
    | _ => (EmptyString, url)
    end in
  if xorb (contains "[" netloc) (contains "]" netloc)
  then Raise (ValueError "Invalid IPv6 URL")
  else
    let '(url, fragment) :=
      match split_first "#" url with
      | Some (u, f) => (u, f)
      | None => (url, EmptyString)
      end in
    let '(url, query) :=
      match split_first "?" url with
      | Some (u, q) => (u, q)
      | None => (url, EmptyString)
      end in
    let '(url, params) :=
      if bool_decide (scheme ∈ uses_params) && contains ";" url
      then splitparams url
      else (url, EmptyString) in
    Ok {| scheme := scheme; netloc := netloc; path := url;
          params := params; query := query; fragment := fragment |}.

End urllib.

(** ** Data model *)

(** A transaction dict: [{"sender", "recipient", "amount"}]. *)
Record Transaction : Type := {
  sender : string;
  recipient : string;
  amount : Z
}.

(** A block dict.  [timestamp] is the float returned by [time()]. *)
Record Block : Type := {
  index : Z;
  timestamp : float;
  transactions : list Transaction;
  proof : Z;
  previous_hash : pyval
}.

(** The attributes of a [Blockchain] object. *)
Record Blockchain : Type := {
  chain : list Block;
  current_transactions : list Transaction;
  nodes : gset string
}.

(** What [requests.get(url)] returns: the status code and, as read by
    [response.json()], the [length] and [chain] entries of the body. *)
Record Response : Type := {
  status_code : Z;
  json_length : Z;
  json_chain : list Block
}.

(** The functions and values the program takes from its host: the SHA-256
    hex digest of [hashlib], [json.dumps(_, sort_keys=True)] on a block, and
    the node identifier drawn from [uuid4()] at start-up. *)
Class Host : Type := {
  sha256_hexdigest : string -> string;
  json_dumps : Block -> string;
  node_identifier : string
}.

(** ** The state-and-exception monad of the methods *)

Definition M (A : Type) : Type := Blockchain -> outcome A * Blockchain.

Definition ret {A} (a : A) : M A := fun self => (Ok a, self).

Definition raise {A} (e : exn) : M A := fun self => (Raise e, self).

Definition bind {A B} (m : M A) (k : A -> M B) : M B :=
  fun self =>
    match m self with
    | (Ok a, self') => k a self'
    | (Raise e, self') => (Raise e, self')
    end.

Definition get : M Blockchain := fun self => (Ok self, self).

Definition put (s : Blockchain) : M unit := fun _ => (Ok tt, s).

Notation "x <- m ;; k" := (bind m (fun x => k))
  (at level 100, m at next level, right associativity).
Notation "m ;;; k" := (bind m (fun _ => k))
  (at level 100, right associativity).

Definition set_chain (c : list Block) (self : Blockchain) : Blockchain :=
  {| chain := c; current_transactions := current_transactions self; nodes := nodes self |}.

Definition set_current_transactions (l : list Transaction) (self : Blockchain) : Blockchain :=
  {| chain := chain self; current_transactions := l; nodes := nodes self |}.

Definition add_node (n : string) (self : Blockchain) : Blockchain :=
  {| chain := chain self; current_transactions := current_transactions self;
     nodes := {[ n ]} ∪ nodes self |}.

(** ** The methods of [Blockchain] *)

Section Methods.
Context `{Host}.

(** [Blockchain.hash] *)
Definition hash (block : Block) : string :=
  let block_string := json_dumps block in
  sha256_hexdigest block_string.

(** [Blockchain.valid_proof] *)
Definition valid_proof (last_proof proof : Z) (last_hash : string) : bool :=
  let guess := str_of_int last_proof ++ str_of_int proof ++ last_hash in
  let guess_hash := sha256_hexdigest guess in
  (slice_to 6 guess_hash =? "000000")%string.

(** The loop of [proof_of_work]; [fuel] bounds the number of times the
    loop condition is evaluated, and [None] means that the search is still
    running when the bound is reached. *)
Fixpoint proof_of_work_loop (fuel : nat) (last_proof : Z) (last_hash : string)
    (proof : Z) : option Z :=
  match fuel with
  | O => None
  | S fuel' =>
      if valid_proof last_proof proof last_hash then Some proof
      else proof_of_work_loop fuel' last_proof last_hash (proof + 1)
  end.

(** [Blockchain.proof_of_work] *)
Definition proof_of_work (fuel : nat) (last_block : Block) : option Z :=
  let last_proof := proof last_block in
  let last_hash := hash last_block in
  proof_of_work_loop fuel last_proof last_hash 0.

(** The [while] loop of [valid_chain] (the [print] calls are left out). *)
Equations? valid_chain_loop (chain : list Block) (last_block : Block)
    (current_index : nat) : outcome bool
    by wf (length chain - current_index)%nat lt :=
valid_chain_loop chain last_block current_index
  with decide (current_index < length chain)%nat := {
  | right _ => Ok true
  | left _ with chain !! current_index := {
    | None => Raise IndexError
    | Some block =>
        let last_block_hash := hash last_block in
        if negb (py_eqb (previous_hash block) (PStr last_block_hash)) then Ok false
        else if negb (valid_proof (proof last_block) (proof block) last_block_hash)
        then Ok false
        else valid_chain_loop chain block (current_index + 1) } }.
Proof. lia. Qed.

(** [Blockchain.valid_chain] *)
Definition valid_chain (chain : list Block) : outcome bool :=
  match chain !! 0%nat with
  | None => Raise IndexError
  | Some last_block => valid_chain_loop chain last_block 1
  end.

(** the property [Blockchain.last_block]: [self.chain[-1]] *)
Definition last_block : M Block :=
  fun self =>
    match last (chain self) with
    | Some block => (Ok block, self)
    | None => (Raise IndexError, self)
    end.

(** [Blockchain.new_block]; [now] is the value of [time()].  The list put
    into the block is the pool itself, and the pool is then rebound to a
    fresh list, so no block shares its transactions with the pool. *)
Definition new_block (now : float) (proof : Z) (previous_hash : option pyval)
    : M Block :=
  self <- get ;;
  link <- match previous_hash with
          | Some v =>
              if truthy v then ret v
              else (b <- last_block ;; ret (PStr (hash b)))
          | None => b <- last_block ;; ret (PStr (hash b))
          end ;;
  let block := {| index := Z.of_nat (length (chain self)) + 1;
                  timestamp := now;
                  transactions := current_transactions self;
                  proof := proof;
                  previous_hash := link |} in
  put (set_current_transactions [] self) ;;;
  self <- get ;;
  put (set_chain (chain self ++ [block]) self) ;;;
  ret block.

(** [Blockchain.new_transaction] *)
Definition new_transaction (sender recipient : string) (amount : Z) : M Z :=
  self <- get ;;
  put (set_current_transactions
         (current_transactions self ++
            [{| sender := sender; recipient := recipient; amount := amount |}])
         self) ;;;
  b <- last_block ;;
  ret (index b + 1).

(** [Blockchain.__init__] *)
Definition Blockchain_init (now : float) : outcome Block * Blockchain :=
  new_block now 100 (Some (PInt 1))
    {| chain := []; current_transactions := []; nodes := ∅ |}.

(** [Blockchain.register_node] *)
Definition register_node (address : string) : M unit :=
  match urllib.urlparse address with
  | Raise e => raise e
  | Ok parsed_url =>
      if negb (urllib.netloc parsed_url =? "")%string then
        self <- get ;; put (add_node (urllib.netloc parsed_url) self)
      else if negb (urllib.path parsed_url =? "")%string then
        self <- get ;; put (add_node (urllib.path parsed_url) self)
      else raise (ValueError "Invalid URL")
  end.

(** The [for] loop of [resolve_conflicts] over the peers in iteration
    order.  [requests_get] is [requests.get]: it returns a response or
    raises (a transport failure raises [ConnectionError]). *)
Fixpoint resolve_loop (requests_get : string -> outcome Response)
    (neighbours : list string) (new_chain : option (list Block)) (max_length : Z)
    : outcome (option (list Block)) :=
  match neighbours with
  | [] => Ok new_chain
  | node :: rest =>
      match requests_get ("http://" ++ node ++ "/chain") with
      | Raise e => Raise e
      | Ok response =>
          if status_code response =? 200 then
            let length := json_length response in
            let chain := json_chain response in
            if length >? max_length then
              match valid_chain chain with
              | Raise e => Raise e
              | Ok true => resolve_loop requests_get rest (Some chain) length
              | Ok false => resolve_loop requests_get rest new_chain max_length
              end
            else resolve_loop requests_get rest new_chain max_length
          else resolve_loop requests_get rest new_chain max_length
      end
  end.

(** [Blockchain.resolve_conflicts]; the set of peers is iterated in the
    order [elements] lists it. *)
Definition resolve_conflicts (requests_get : string -> outcome Response) : M bool :=
  fun self =>
    let neighbours := nodes self in
    let max_length := Z.of_nat (length (chain self)) in
    match resolve_loop requests_get (elements neighbours) None max_length with
    | Raise e => (Raise e, self)
    | Ok (Some (b :: l)) => (Ok true, set_chain (b :: l) self)
    | Ok _ => (Ok false, self)
    end.

(** The route [/mine], up to the block it forges.  [None]: the search of
    [proof_of_work] has not ended within [fuel] steps. *)
Definition mine (fuel : nat) (now : float) (blockchain : Blockchain)
    : option (outcome Block * Blockchain) :=
  match last_block blockchain with
  | (Raise e, blockchain') => Some (Raise e, blockchain')
  | (Ok last_block, blockchain') =>
      match proof_of_work fuel last_block with
      | None => None
      | Some proof =>
          Some ((new_transaction "0" node_identifier 1 ;;;
                 let previous_hash := hash last_block in
                 new_block now proof (Some (PStr previous_hash))) blockchain')
      end
  end.

End Methods.

(** ** The other routes *)

(** Bodies of the replies of [/nodes/register] and [/nodes/resolve]. *)
Inductive register_body : Type :=
| RegisterError (text : string)
| RegisterAdded (message : string) (total_nodes : list string).


Section Routes.
Context `{Host}.

(** The route [/chain], as a peer reads its reply: status 200 and the JSON
    entries [length] and [chain].  The JSON transport is taken to give the
    blocks back as they are. *)
Definition full_chain (blockchain : Blockchain) : Response :=
  {| status_code := 200;
     json_length := Z.of_nat (length (chain blockchain));
     json_chain := chain blockchain |}.

(** The [for] loop of the route [/nodes/register]. *)
Fixpoint register_each (addresses : list string) : M unit :=
  match addresses with
  | [] => ret tt
  | node :: rest => register_node node ;;; register_each rest
  end.

(** The route [/nodes/register]; the argument is [values.get("nodes")],
    [None] when the key is missing, else a list of addresses. *)
Definition register_nodes (requested : option (list string)) : M (register_body * Z) :=
  match requested with
  | None => ret (RegisterError "Error: Please supply a valid list of nodes", 400)
  | Some addresses =>
      register_each addresses ;;;
      blockchain <- get ;;
      ret (RegisterAdded "New nodes have been added" (elements (nodes blockchain)), 201)
  end.


End Routes.

(** ** Predicates of the specification *)

Section Specification.
Context `{Host}.

(** The URL that [resolve_conflicts] fetches for a peer. *)
Definition chain_url (node : string) : string := "http://" ++ node ++ "/chain".

(** The two checks that [valid_chain] makes on an adjacent pair. *)
Definition linked (prev cur : Block) : Prop :=
  previous_hash cur = PStr (hash prev) /\
  valid_proof (proof prev) (proof cur) (hash prev) = true.

(** The same two checks along a chain, from [last_block] on. *)
Fixpoint pairs_linked (last_block : Block) (rest : list Block) : bool :=
  match rest with
  | [] => true
  | block :: rest' =>
      py_eqb (previous_hash block) (PStr (hash last_block))
      && valid_proof (proof last_block) (proof block) (hash last_block)
      && pairs_linked block rest'
  end.

(** [previous_hash or self.hash(self.chain[-1])], given the last block. *)
Definition previous_hash_or (previous_hash : option pyval) (last_block : Block) : pyval :=
  match previous_hash with
  | Some v => if truthy v then v else PStr (hash last_block)
  | None => PStr (hash last_block)
  end.

(** The reward transaction that [/mine] submits. *)
Definition reward : Transaction :=
  {| sender := "0"; recipient := node_identifier; amount := 1 |}.

(** The chain invariant: every block after the first is linked to its
    predecessor. *)
Definition chain_linked (chain : list Block) : Prop :=
  forall (i : nat) (prev cur : Block),
    (0 < i)%nat ->
    chain !! (i - 1)%nat = Some prev ->
    chain !! i = Some cur ->
    linked prev cur.

(** A fetched response that [resolve_conflicts] may adopt: status 200, a
    reported length above the local chain's, and a chain that [valid_chain]
    accepts. *)
Definition qualifies (self : Blockchain) (r : Response) : Prop :=
  status_code r = 200 /\
  json_length r > Z.of_nat (length (chain self)) /\
  valid_chain (json_chain r) = Ok true.

(** The states of a node: a fresh [Blockchain], then any sequence of
    submitted transactions, mined blocks, registered peers and consensus
    passes.  A call that raises leaves the state it had reached; a [/mine]
    request whose search does not end produces no state. *)
Inductive reachable : Blockchain -> Prop :=
| reach_init (now : float) :
    reachable (snd (Blockchain_init now))
| reach_new_transaction (self : Blockchain) (sender recipient : string) (amount : Z) :
    reachable self ->
    reachable (snd (new_transaction sender recipient amount self))
| reach_mine (self self' : Blockchain) (fuel : nat) (now : float) (o : outcome Block) :
    reachable self ->
    mine fuel now self = Some (o, self') ->
    reachable self'
| reach_register_node (self : Blockchain) (address : string) :
    reachable self ->
    reachable (snd (register_node address self))
| reach_resolve_conflicts (self : Blockchain)
    (requests_get : string -> outcome Response) :
    reachable self ->
    reachable (snd (resolve_conflicts requests_get self)).

(** The states of a node that has run no consensus pass: the chain is the
    node's own work. *)
Inductive mined_locally : Blockchain -> Prop :=
| local_init (now : float) :
    mined_locally (snd (Blockchain_init now))
| local_new_transaction (self : Blockchain) (sender recipient : string) (amount : Z) :
    mined_locally self ->
    mined_locally (snd (new_transaction sender recipient amount self))
| local_mine (self self' : Blockchain) (fuel : nat) (now : float) (o : outcome Block) :
    mined_locally self ->
    mine fuel now self = Some (o, self') ->
    mined_locally self'
| local_register_node (self : Blockchain) (address : string) :
    mined_locally self ->
    mined_locally (snd (register_node address self)).

(** [evolves self self']: the node goes from the ledger [self] to the ledger
    [self'] by submitted transactions, [/mine] requests and registrations
    of peers, with no consensus pass in between. *)
Inductive evolves (self : Blockchain) : Blockchain -> Prop :=
| evolves_here :
    evolves self self
| evolves_new_transaction (self' : Blockchain) (sender recipient : string) (amount : Z) :
    evolves self self' ->
    evolves self (snd (new_transaction sender recipient amount self'))
| evolves_mine (self' self'' : Blockchain) (fuel : nat) (now : float) (o : outcome Block) :
    evolves self self' ->
    mine fuel now self' = Some (o, self'') ->
    evolves self self''
| evolves_register_node (self' : Blockchain) (address : string) :
    evolves self self' ->
    evolves self (snd (register_node address self')).

(** What every block of the chain of such a state looks like: its index is its position
    plus one; the first block is the genesis block; every later block ends
    with the reward transaction. *)
Definition own_work (c : list Block) : Prop :=
  forall (i : nat) (b : Block),
    c !! i = Some b ->
    index b = Z.of_nat i + 1 /\
    match i with
    | O => transactions b = [] /\ proof b = 100 /\ previous_hash b = PInt 1
    | S _ => last (transactions b) = Some reward
    end.

(** The entry that [register_node] adds for an address, if any. *)
Definition peer_entry (address : string) : option string :=
  match urllib.urlparse address with
  | Ok parsed =>
      if negb (urllib.netloc parsed =? "")%string then Some (urllib.netloc parsed)
      else if negb (urllib.path parsed =? "")%string then Some (urllib.path parsed)
      else None
  | Raise _ => None
  end.

(** A character that ends the network location of a URL, opens or closes
    an IPv6 host, or is removed from a URL before it is split. *)
Definition netloc_breaker (c : ascii) : bool :=
  ((c =? "/") || (c =? "?") || (c =? "#") || (c =? "[") || (c =? "]"))%char
  || ((urllib.code c =? 9) || (urllib.code c =? 10) || (urllib.code c =? 13))%nat.

(** What may follow the network location in a URL: nothing, or a path, a
    query or a fragment. *)
Definition ends_netloc (rest : string) : bool :=
  match rest with
  | EmptyString => true
  | String c _ => ((c =? "/") || (c =? "?") || (c =? "#"))%char
  end.

(** A host of a URL: not empty, made of ASCII characters only (so that
    the check that [urlparse] makes of a non-ASCII network location, which
    [urllib] leaves out, does not come into play), and free of the
    characters of [netloc_breaker]. *)
Definition plain_host (host : string) : bool :=
  negb (host =? "")%string
  && urllib.all_chars (fun c => (urllib.code c <? 128)%nat) host
  && urllib.all_chars (fun c => negb (netloc_breaker c)) host.

End Specification.

(** ** A host to run the model on

    The theorems below hold for every [Host].  To evaluate the model on
    concrete ledgers a small host is fixed here; its digest is a stand-in
    (the sum of the bytes modulo 16, as a hex digit repeated 64 times), not
    SHA-256. *)
Module Demo.

Fixpoint byte_sum (s : string) : nat :=
  match s with
  | EmptyString => 0
  | String c s' => nat_of_ascii c + byte_sum s'
  end.

Definition hex_digit (n : nat) : ascii :=
  nth n (list_ascii_of_string "0123456789abcdef") "0"%char.

Fixpoint replicate_char (n : nat) (c : ascii) : string :=
  match n with
  | O => EmptyString
  | S n' => String c (replicate_char n' c)
  end.

Definition digest (s : string) : string :=
  replicate_char 64 (hex_digit (byte_sum s mod 16)).

Definition dumps (b : Block) : string :=
  "{index: " ++ str_of_int (index b) ++
  ", previous_hash: " ++
    match previous_hash b with
    | PInt z => str_of_int z
    | PStr s => s
    end ++
  ", proof: " ++ str_of_int (proof b) ++
  ", transactions: " ++ str_of_int (Z.of_nat (length (transactions b))) ++ "}".

Definition host : Host :=
  {| sha256_hexdigest := digest;
     json_dumps := dumps;
     node_identifier := "5f1c0e6a9d2b4c7e8a3f0b1d2c4e6f80" |}.

(** A fresh ledger. *)
Definition fresh : Blockchain := snd (@Blockchain_init host 1700000000.25%float).

Definition tx1 : Transaction := {| sender := "alice"; recipient := "bob"; amount := 5 |}.
Definition tx2 : Transaction := {| sender := "bob"; recipient := "carol"; amount := 2 |}.
Definition tx3 : Transaction := {| sender := "carol"; recipient := "alice"; amount := 7 |}.

(** The ledger after three submitted transactions. *)
Definition submitted : Blockchain :=
  snd (@new_transaction "carol" "alice" 7
    (snd (@new_transaction "bob" "carol" 2
      (snd (@new_transaction "alice" "bob" 5 fresh))))).

(** The ledger after a [/mine] request on top of that. *)
Definition mined : Blockchain :=
  match @mine host 100 1700000060.5%float submitted with
  | Some (_, self) => self
  | None => submitted
  end.

(** The genesis block of [fresh]. *)
Definition genesis : Block :=
  {| index := 1; timestamp := 1700000000.25%float; transactions := [];
     proof := 100; previous_hash := PInt 1 |}.

(** One more [/mine] request. *)
Definition mine_again (now : float) (self : Blockchain) : Blockchain :=
  match @mine host 100 now self with
  | Some (_, self') => self'
  | None => self
  end.

(** [mined] with one registered peer, and with two. *)
Definition local : Blockchain :=
  snd (register_node "192.168.0.1:5000" mined).

Definition local2 : Blockchain :=
  snd (register_node "http://10.0.0.2:5000" (snd (register_node "http://10.0.0.1:5000" mined))).

(** The ledger of a peer that went on mining: five blocks. *)
Definition peer : Blockchain :=
  mine_again 1700000240.5%float
    (mine_again 1700000180.5%float
      (mine_again 1700000120.5%float mined)).

(** Responses of peers: the longer chain, the genesis block alone reported
    with its length, the genesis block alone reported as 99 blocks, and an
    answer that is no success. *)
Definition longer_response : Response :=
  {| status_code := 200; json_length := 5; json_chain := chain peer |}.


Definition overstated_response : Response :=
  {| status_code := 200; json_length := 99; json_chain := [genesis] |}.

Definition unavailable_response : Response :=
  {| status_code := 503; json_length := 0; json_chain := [] |}.


(** Networks: every peer gives the same answer; no peer can be reached; the
    peer at 10.0.0.1 cannot be reached while every other one serves the
    longer chain. *)
Definition serves (r : Response) : string -> outcome Response :=
  fun _ => Ok r.

Definition offline : string -> outcome Response :=
  fun _ => Raise ConnectionError.

Definition one_down : string -> outcome Response :=
  fun url =>
    if (url =? "http://10.0.0.1:5000/chain")%string then Raise ConnectionError
    else Ok longer_response.

(** A second peer that mined three blocks of its own on [mined], and its
    response; a network in which the peer at 10.0.0.1 serves the chain of
    [peer] and every other peer the chain of [rival]. *)
Definition rival : Blockchain :=
  mine_again 1700000245.75%float
    (mine_again 1700000185.75%float
      (mine_again 1700000125.75%float mined)).

Definition rival_response : Response :=
  {| status_code := 200; json_length := 5; json_chain := chain rival |}.

Definition two_up : string -> outcome Response :=
  fun url =>
    if (url =? "http://10.0.0.1:5000/chain")%string then Ok longer_response
    else Ok rival_response.

(** The second block of [mined] with another payload. *)
Definition forged : Block :=
  {| index := 7; timestamp := 0%float;
     transactions := [{| sender := "bob"; recipient := "mallory"; amount := 1000 |}];
     proof := 69;
     previous_hash := PStr "eeeeeeeeeeeeeeeeeeeeeeeeeeeeeeeeeeeeeeeeeeeeeeeeeeeeeeeeeeeeeeee" |}.

End Demo.

(** * Properties *)

(** ** Strings and values *)

Lemma slice_to_prefix (n : nat) (t s : string) :
  String.length t = n ->
  slice_to n s = t <-> exists rest, s = t ++ rest.
Proof.
  unfold slice_to. revert t s.
  induction n as [|n IH]; intros t s Hlen.
  - destruct t; [|discriminate]. split.
    + intros _. exists s. reflexivity.
    + intros _. destruct s; reflexivity.
  - destruct t as [|c t]; [discriminate|].
    injection Hlen as Hlen.
    destruct s as [|d s]; simpl.
    + split; [discriminate|]. intros [rest Hrest]. discriminate.
    + split.
      * intros Heq. injection Heq as -> Heq.
        apply (IH t s Hlen) in Heq. destruct Heq as [rest ->].
        exists rest. reflexivity.
      * intros [rest Hrest]. simpl in Hrest. injection Hrest as -> ->.
        f_equal. apply (IH t (t ++ rest) Hlen). exists rest. reflexivity.
Qed.

Lemma py_eqb_PStr (v : pyval) (s : string) :
  py_eqb v (PStr s) = true <-> v = PStr s.
Proof.
  destruct v as [z|t]; simpl.
  - split; discriminate.
  - rewrite String.eqb_eq. split; [intros ->; reflexivity | intros [= ->]; reflexivity].
Qed.

Section Properties.
Context `{Host}.

(** ** [valid_proof] and [proof_of_work] *)

Lemma valid_proof_digest (last_proof proof : Z) (last_hash : string) :
  valid_proof last_proof proof last_hash = true <->
  exists rest,
    sha256_hexdigest (str_of_int last_proof ++ str_of_int proof ++ last_hash)
    = "000000" ++ rest.
Proof.
  unfold valid_proof. rewrite String.eqb_eq.
  apply slice_to_prefix. reflexivity.
Qed.

Lemma proof_of_work_loop_spec (last_proof : Z) (last_hash : string) (fuel : nat) :
  forall start p,
    proof_of_work_loop fuel last_proof last_hash start = Some p <->
    start <= p < start + Z.of_nat fuel /\
    valid_proof last_proof p last_hash = true /\
    (forall q, start <= q < p -> valid_proof last_proof q last_hash = false).
Proof.
  induction fuel as [|fuel IH]; intros start p; simpl.
  - split; [discriminate | lia].
  - destruct (valid_proof last_proof start last_hash) eqn:Hv.
    + split.
      * intros [= <-]. repeat split; try lia. exact Hv.
      * intros (Hr & Hp & Hmin).
        destruct (Z.eq_dec p start) as [->|Hne]; [reflexivity|].
        rewrite (Hmin start) in Hv; [discriminate | lia].
    + rewrite IH. split.
      * intros (Hr & Hp & Hmin). repeat split; try lia; [exact Hp|].
        intros q Hq. destruct (Z.eq_dec q start) as [->|Hne]; [exact Hv|].
        apply Hmin. lia.
      * intros (Hr & Hp & Hmin).
        assert (p <> start) by (intros ->; rewrite Hp in Hv; discriminate).
        repeat split; try lia; [exact Hp|].
        intros q Hq. apply Hmin. lia.
Qed.

(** ** [valid_chain] *)

Lemma valid_chain_loop_eq (chain : list Block) (last_block : Block)
    (current_index : nat) :
  valid_chain_loop chain last_block current_index =
  if decide (current_index < length chain)%nat then
    match chain !! current_index with
    | None => Raise IndexError
    | Some block =>
        if negb (py_eqb (previous_hash block) (PStr (hash last_block))) then Ok false
        else if negb (valid_proof (proof last_block) (proof block) (hash last_block))
        then Ok false
        else valid_chain_loop chain block (current_index + 1)
    end
  else Ok true.
Proof.
  rewrite valid_chain_loop_equation_1.
  destruct (decide (current_index < length chain)%nat); simpl; [|reflexivity].
  destruct (chain !! current_index); reflexivity.
Qed.

(** The loop from [current_index] on checks the pairs of the rest of the
    chain, and never reads out of range. *)
Lemma valid_chain_loop_drop (chain : list Block) :
  forall (n current_index : nat) (last_block : Block),
    (length chain - current_index)%nat = n ->
    valid_chain_loop chain last_block current_index
    = Ok (pairs_linked last_block (drop current_index chain)).
Proof.
  induction n as [|n IH]; intros i lb Hn; rewrite valid_chain_loop_eq.
  - destruct (decide (i < length chain)%nat) as [Hlt|Hge]; [lia|].
    rewrite drop_ge by lia. reflexivity.
  - destruct (decide (i < length chain)%nat) as [Hlt|Hge]; [|lia].
    destruct (lookup_lt_is_Some_2 chain i Hlt) as [block Hblock].
    rewrite Hblock, (drop_S _ _ _ Hblock). simpl.
    destruct (py_eqb (previous_hash block) (PStr (hash lb))); simpl; [|reflexivity].
    destruct (valid_proof (proof lb) (proof block) (hash lb)); simpl; [|reflexivity].
    replace (i + 1)%nat with (S i) by lia.
    apply IH. lia.
Qed.

Lemma valid_chain_cons (b0 : Block) (rest : list Block) :
  valid_chain (b0 :: rest) = Ok (pairs_linked b0 rest).
Proof.
  unfold valid_chain. simpl.
  rewrite (valid_chain_loop_drop (b0 :: rest) (length rest) 1 b0); [reflexivity|].
  simpl. lia.
Qed.

Lemma chain_linked_succ (chain : list Block) :
  chain_linked chain <->
  forall (i : nat) (prev cur : Block),
    chain !! i = Some prev -> chain !! S i = Some cur -> linked prev cur.
Proof.
  unfold chain_linked. split.
  - intros Hl i prev cur Hp Hc. apply (Hl (S i)); [lia | | exact Hc].
    replace (S i - 1)%nat with i by lia. exact Hp.
  - intros Hl i prev cur Hi Hp Hc. destruct i as [|i]; [lia|].
    replace (S i - 1)%nat with i in Hp by lia.
    exact (Hl i prev cur Hp Hc).
Qed.

Lemma pairs_linked_chain_linked (rest : list Block) :
  forall b0, pairs_linked b0 rest = true <-> chain_linked (b0 :: rest).
Proof.
  induction rest as [|b rest IH]; intros b0; simpl.
  - split; [|reflexivity].
    intros _. apply chain_linked_succ. intros i prev cur _ Hc.
    destruct i; discriminate.
  - rewrite !andb_true_iff, py_eqb_PStr, IH, !chain_linked_succ. split.
    + intros [[Hprev Hproof] Hrest] i prev cur Hp Hc.
      destruct i as [|i].
      * simpl in Hp, Hc. injection Hp as <-. injection Hc as <-.
        split; assumption.
      * exact (Hrest i prev cur Hp Hc).
    + intros Hl. split.
      * apply (Hl 0%nat b0 b); reflexivity.
      * intros i prev cur Hp Hc. exact (Hl (S i) prev cur Hp Hc).
Qed.

Lemma linked_checks (prev cur : Block) :
  py_eqb (previous_hash cur) (PStr (hash prev))
  && valid_proof (proof prev) (proof cur) (hash prev) = true
  <-> linked prev cur.
Proof. unfold linked. rewrite andb_true_iff, py_eqb_PStr. reflexivity. Qed.

Lemma pairs_linked_break (pre suffix : list Block) (prev cur : Block) :
  ~ linked prev cur ->
  forall b0, pairs_linked b0 (pre ++ prev :: cur :: suffix) = false.
Proof.
  intros Hbad. rewrite <- linked_checks in Hbad.
  apply not_true_is_false in Hbad.
  induction pre as [|b pre IH]; intros b0; simpl.
  - rewrite Hbad. apply andb_false_r.
  - rewrite IH. apply andb_false_r.
Qed.

Lemma valid_chain_break (pre suffix : list Block) (prev cur : Block) :
  ~ linked prev cur ->
  valid_chain (pre ++ prev :: cur :: suffix) = Ok false.
Proof.
  intros Hbad. destruct pre as [|b0 pre]; simpl; rewrite valid_chain_cons.
  - rewrite <- linked_checks in Hbad. apply not_true_is_false in Hbad.
    simpl. rewrite Hbad. reflexivity.
  - rewrite (pairs_linked_break pre suffix prev cur Hbad). reflexivity.
Qed.

(** ** Specifications of the pure functions *)

(** C3: [valid_proof] returns true exactly when the hex digest of the
    concatenation of the decimal renderings of [last_proof] and [proof]
    and of [last_hash] begins with six characters 0.  Whenever
    [proof_of_work] ends with a value [p], that value passes [valid_proof]
    for the proof and the hash of the last block and is the least
    non-negative integer that does; conversely the search, which starts at
    0 and goes up by 1, ends with the least such integer as soon as it is
    given more steps than that integer. *)
Theorem valid_proof_proof_of_work :
  (forall (last_proof proof : Z) (last_hash : string),
      valid_proof last_proof proof last_hash = true <->
      exists rest,
        sha256_hexdigest (str_of_int last_proof ++ str_of_int proof ++ last_hash)
        = "000000" ++ rest) /\
  (forall (fuel : nat) (last_block : Block) (p : Z),
      proof_of_work fuel last_block = Some p ->
      valid_proof (proof last_block) p (hash last_block) = true /\
      0 <= p /\
      forall q, 0 <= q < p ->
        valid_proof (proof last_block) q (hash last_block) = false) /\
  (forall (last_block : Block) (p : Z),
      0 <= p ->
      valid_proof (proof last_block) p (hash last_block) = true ->
      (forall q, 0 <= q < p ->
         valid_proof (proof last_block) q (hash last_block) = false) ->
      forall fuel : nat, (Z.to_nat p < fuel)%nat ->
        proof_of_work fuel last_block = Some p).
Proof.
  split; [exact valid_proof_digest|]. split.
  - intros fuel lb p Hp. unfold proof_of_work in Hp.
    apply proof_of_work_loop_spec in Hp. destruct Hp as (Hr & Hv & Hmin).
    repeat split; [exact Hv | lia | exact Hmin].
  - intros lb p Hp Hv Hmin fuel Hfuel. unfold proof_of_work.
    apply proof_of_work_loop_spec. repeat split; [lia | lia | exact Hv | exact Hmin].
Qed.

(** C4: on a non-empty chain [valid_chain] returns, and it returns true
    exactly when every block after the first carries the hash of its
    predecessor and a proof that [valid_proof] accepts for the
    predecessor's proof and hash.  Block 0 enters only as a predecessor
    (through its proof and its hash), a chain of one block is valid, and a
    failing pair makes the result false whatever blocks come after it. *)
Theorem valid_chain_adjacent_pairs :
  (forall (b0 : Block) (rest : list Block),
      exists b : bool,
        valid_chain (b0 :: rest) = Ok b /\
        (b = true <-> chain_linked (b0 :: rest))) /\
  (forall (b0 b0' : Block) (rest : list Block),
      proof b0' = proof b0 -> hash b0' = hash b0 ->
      valid_chain (b0' :: rest) = valid_chain (b0 :: rest)) /\
  (forall b0 : Block, valid_chain [b0] = Ok true) /\
  (forall (pre : list Block) (prev cur : Block) (suffix : list Block),
      ~ linked prev cur ->
      valid_chain (pre ++ prev :: cur :: suffix) = Ok false).
Proof.
  split; [|split; [|split]].
  - intros b0 rest. exists (pairs_linked b0 rest).
    split; [apply valid_chain_cons | apply pairs_linked_chain_linked].
  - intros b0 b0' rest Hproof Hhash. rewrite !valid_chain_cons.
    destruct rest as [|b rest]; [reflexivity|]. simpl.
    rewrite Hproof, Hhash. reflexivity.
  - intros b0. apply valid_chain_cons.
  - intros pre prev cur suffix. apply valid_chain_break.
Qed.

(** C10: [valid_chain] reads [chain[0]] before its loop: on the empty
    list it raises [IndexError], the empty list is the only chain on which
    it raises, and on every non-empty chain it returns a boolean. *)
Theorem valid_chain_empty_chain :
  valid_chain [] = Raise IndexError /\
  (forall (chain : list Block) (e : exn),
      valid_chain chain = Raise e <-> chain = [] /\ e = IndexError) /\
  (forall (b0 : Block) (rest : list Block),
      exists b : bool, valid_chain (b0 :: rest) = Ok b).
Proof.
  split; [reflexivity|]. split.
  - intros chain e. destruct chain as [|b0 rest].
    + unfold valid_chain. simpl. split.
      * intros [= <-]. split; reflexivity.
      * intros [_ ->]. reflexivity.
    + rewrite valid_chain_cons. split; [discriminate|]. intros [? _]. discriminate.
  - intros b0 rest. rewrite valid_chain_cons. eexists. reflexivity.
Qed.

(** ** [__init__] *)

(** C8: a freshly constructed [Blockchain] has a chain of exactly one
    block, the genesis block, whose index is 1, whose proof is 100, whose
    [previous_hash] is the integer 1 (no digest string at all) and whose
    transaction list is empty; its pool of pending transactions is empty
    and so is its set of peers. *)
Theorem genesis_block (now : float) :
  exists genesis : Block,
    Blockchain_init now
    = (Ok genesis,
       {| chain := [genesis]; current_transactions := []; nodes := ∅ |}) /\
    index genesis = 1 /\
    proof genesis = 100 /\
    previous_hash genesis = PInt 1 /\
    (forall digest : string, previous_hash genesis <> PStr digest) /\
    transactions genesis = [] /\
    timestamp genesis = now.
Proof.
  exists {| index := 1; timestamp := now; transactions := [];
            proof := 100; previous_hash := PInt 1 |}.
  split; [reflexivity|]. simpl.
  repeat split; try reflexivity. intros digest. discriminate.
Qed.

(** ** [new_block], [new_transaction] and [/mine] *)

Lemma new_block_spec (now : float) (proof : Z) (previous_hash : option pyval)
    (self : Blockchain) (lb : Block) :
  last (chain self) = Some lb ->
  new_block now proof previous_hash self
  = (Ok {| index := Z.of_nat (length (chain self)) + 1;
           timestamp := now;
           transactions := current_transactions self;
           proof := proof;
           previous_hash := previous_hash_or previous_hash lb |},
     {| chain := chain self ++
                 [{| index := Z.of_nat (length (chain self)) + 1;
                     timestamp := now;
                     transactions := current_transactions self;
                     proof := proof;
                     previous_hash := previous_hash_or previous_hash lb |}];
        current_transactions := [];
        nodes := nodes self |}).
Proof.
  intros Hlast.
  unfold new_block, previous_hash_or, bind, get, put, ret, last_block.
  destruct previous_hash as [v|]; [destruct (truthy v)|]; simpl;
    rewrite ?Hlast; reflexivity.
Qed.

Lemma new_transaction_spec (sender recipient : string) (amount : Z)
    (self : Blockchain) (lb : Block) :
  last (chain self) = Some lb ->
  new_transaction sender recipient amount self
  = (Ok (index lb + 1),
     set_current_transactions
       (current_transactions self ++
          [{| sender := sender; recipient := recipient; amount := amount |}])
       self).
Proof.
  intros Hlast. unfold new_transaction, bind, get, put, ret, last_block.
  simpl. rewrite Hlast. reflexivity.
Qed.

Lemma new_transaction_chain (sender recipient : string) (amount : Z)
    (self : Blockchain) :
  chain (snd (new_transaction sender recipient amount self)) = chain self.
Proof.
  unfold new_transaction, bind, get, put, ret, last_block. simpl.
  destruct (last (chain self)); reflexivity.
Qed.

Lemma previous_hash_or_hash (lb : Block) :
  previous_hash_or (Some (PStr (hash lb))) lb = PStr (hash lb).
Proof.
  unfold previous_hash_or. destruct (truthy (PStr (hash lb))); reflexivity.
Qed.

Lemma mine_spec (fuel : nat) (now : float) (self : Blockchain) (lb : Block) (p : Z) :
  last (chain self) = Some lb ->
  proof_of_work fuel lb = Some p ->
  mine fuel now self
  = Some (Ok {| index := Z.of_nat (length (chain self)) + 1;
                timestamp := now;
                transactions := current_transactions self ++ [reward];
                proof := p;
                previous_hash := PStr (hash lb) |},
          {| chain := chain self ++
                      [{| index := Z.of_nat (length (chain self)) + 1;
                          timestamp := now;
                          transactions := current_transactions self ++ [reward];
                          proof := p;
                          previous_hash := PStr (hash lb) |}];
             current_transactions := [];
             nodes := nodes self |}).
Proof.
  intros Hlast Hpow. unfold mine, last_block at 1. rewrite Hlast, Hpow.
  f_equal. unfold bind at 1.
  rewrite (new_transaction_spec _ _ _ self lb Hlast).
  rewrite (new_block_spec now p _ _ lb); [|exact Hlast].
  rewrite previous_hash_or_hash. reflexivity.
Qed.

(** C5, as amended: on a ledger with a last block, [new_block] appends a
    block whose index is the length of the chain plus one, whose
    transactions are the whole pending pool in submission order, whose proof
    is the given one and whose [previous_hash] is the given value when one is
    given and is truthy (a non-empty string, a non-zero integer), and the
    hash of the last block otherwise; the pool is empty afterwards.  After
    three transactions submitted to an empty pool, a [/mine] request whose
    search ends forges a block holding exactly those three followed by the
    reward transaction (sender 0, amount 1), and leaves the pool empty. *)
Theorem new_block_drains_pool (self : Blockchain) (lb : Block) :
  last (chain self) = Some lb ->
  (forall (now : float) (p : Z) (given : option pyval),
      exists block : Block,
        new_block now p given self
        = (Ok block,
           {| chain := chain self ++ [block];
              current_transactions := [];
              nodes := nodes self |}) /\
        index block = Z.of_nat (length (chain self)) + 1 /\
        transactions block = current_transactions self /\
        proof block = p /\
        previous_hash block
        = match given with
          | Some v => if truthy v then v else PStr (hash lb)
          | None => PStr (hash lb)
          end) /\
  (forall (t1 t2 t3 : Transaction) (fuel : nat) (now : float) (p : Z),
      current_transactions self = [] ->
      proof_of_work fuel lb = Some p ->
      exists (block : Block) (self' : Blockchain),
        mine fuel now
          (snd (new_transaction (sender t3) (recipient t3) (amount t3)
            (snd (new_transaction (sender t2) (recipient t2) (amount t2)
              (snd (new_transaction (sender t1) (recipient t1) (amount t1) self))))))
        = Some (Ok block, self') /\
        transactions block
        = [t1; t2; t3; {| sender := "0"; recipient := node_identifier; amount := 1 |}] /\
        proof block = p /\
        previous_hash block = PStr (hash lb) /\
        chain self' = (chain self ++ [block])%list /\
        current_transactions self' = []).
Proof.
  intros Hlast. split.
  - intros now p given. eexists. split.
    + apply (new_block_spec now p given self lb Hlast).
    + repeat split.
  - intros [s1 r1 a1] [s2 r2 a2] [s3 r3 a3] fuel now p Hpool Hpow. simpl.
    rewrite (new_transaction_spec s1 r1 a1 self lb Hlast). cbn [snd].
    set (st1 := set_current_transactions _ self).
    rewrite (new_transaction_spec s2 r2 a2 st1 lb Hlast). cbn [snd].
    set (st2 := set_current_transactions _ st1).
    rewrite (new_transaction_spec s3 r3 a3 st2 lb Hlast). cbn [snd].
    set (st3 := set_current_transactions _ st2).
    eexists. eexists. split.
    + apply (mine_spec fuel now st3 lb p); [exact Hlast | exact Hpow].
    + subst st1 st2 st3. simpl. rewrite Hpool. repeat split.
Qed.

(** ** [register_node] *)

Lemma register_node_spec (address : string) (parsed : urllib.ParseResult)
    (self : Blockchain) :
  urllib.urlparse address = Ok parsed ->
  register_node address self
  = if negb (urllib.netloc parsed =? "")%string
    then (Ok tt, add_node (urllib.netloc parsed) self)
    else if negb (urllib.path parsed =? "")%string
         then (Ok tt, add_node (urllib.path parsed) self)
         else (Raise (ValueError "Invalid URL"), self).
Proof.
  intros Hparse. unfold register_node. rewrite Hparse.
  destruct (negb (urllib.netloc parsed =? "")%string); [reflexivity|].
  destruct (negb (urllib.path parsed =? "")%string); reflexivity.
Qed.

Lemma register_node_chain (address : string) (self : Blockchain) :
  chain (snd (register_node address self)) = chain self.
Proof.
  unfold register_node. destruct (urllib.urlparse address) as [parsed|e]; [|reflexivity].
  destruct (negb (urllib.netloc parsed =? "")%string); [reflexivity|].
  destruct (negb (urllib.path parsed =? "")%string); reflexivity.
Qed.

(** C7, as amended: registering [192.168.0.1:5000] and registering
    [http://192.168.0.1:5000] lead to the same state, and after both the
    peer set has gained the one entry [192.168.0.1:5000].  An address that
    parses fails with [ValueError] (message [Invalid URL]) exactly when its
    parse has neither a network location nor a path, as the empty string
    does; the failure leaves the peer set unchanged. *)
Theorem register_node_addresses (self : Blockchain) :
  register_node "192.168.0.1:5000" self
  = (Ok tt, add_node "192.168.0.1:5000" self) /\
  register_node "http://192.168.0.1:5000" self
  = (Ok tt, add_node "192.168.0.1:5000" self) /\
  nodes (snd (register_node "http://192.168.0.1:5000"
                (snd (register_node "192.168.0.1:5000" self))))
  = {[ "192.168.0.1:5000" ]} ∪ nodes self /\
  (forall (address : string) (parsed : urllib.ParseResult),
      urllib.urlparse address = Ok parsed ->
      register_node address self = (Raise (ValueError "Invalid URL"), self) <->
      urllib.netloc parsed = EmptyString /\ urllib.path parsed = EmptyString) /\
  (forall (address : string) (e : exn) (self' : Blockchain),
      register_node address self = (Raise e, self') -> self' = self) /\
  register_node EmptyString self = (Raise (ValueError "Invalid URL"), self).
Proof.
  split; [reflexivity|]. split; [reflexivity|]. split.
  - simpl. rewrite union_assoc_L, union_idemp_L. reflexivity.
  - split; [|split; [|reflexivity]].
    + intros address parsed Hparse.
      rewrite (register_node_spec address parsed self Hparse).
      destruct (String.eqb_spec (urllib.netloc parsed) "") as [Hn|Hn]; simpl.
      * destruct (String.eqb_spec (urllib.path parsed) "") as [Hp|Hp]; simpl.
        -- split; [intros _; split; assumption | intros _; reflexivity].
        -- split; [discriminate | intros [_ Hp']; contradiction].
      * split; [discriminate | intros [Hn' _]; contradiction].
    + intros address e self'. unfold register_node.
      destruct (urllib.urlparse address) as [parsed|e0].
      * destruct (negb (urllib.netloc parsed =? "")%string); [discriminate|].
        destruct (negb (urllib.path parsed =? "")%string); [discriminate|].
        intros [= _ <-]. reflexivity.
      * intros [= _ <-]. reflexivity.
Qed.

(** ** [resolve_conflicts] *)

(** What the loop has adopted when it ends: [L] is the final [max_length]. *)
Lemma resolve_loop_adopts (requests_get : string -> outcome Response)
    (neighbours : list string) :
  forall (new_chain : option (list Block)) (max_length : Z)
         (result : option (list Block)),
    resolve_loop requests_get neighbours new_chain max_length = Ok result ->
    exists L : Z,
      max_length <= L /\
      (forall node r,
          node ∈ neighbours ->
          requests_get (chain_url node) = Ok r ->
          status_code r = 200 ->
          valid_chain (json_chain r) = Ok true ->
          json_length r <= L) /\
      ((result = new_chain /\ L = max_length) \/
       (exists node r,
           node ∈ neighbours /\
           requests_get (chain_url node) = Ok r /\
           status_code r = 200 /\
           valid_chain (json_chain r) = Ok true /\
           json_length r = L /\
           L > max_length /\
           result = Some (json_chain r))).
Proof.
  unfold chain_url.
  induction neighbours as [|node rest IH]; intros nc ml res; simpl.
  - intros [= <-]. exists ml. split; [lia|]. split; [|left; split; reflexivity].
    intros node r Hin. apply elem_of_nil in Hin. contradiction.
  - destruct (requests_get ("http://" ++ node ++ "/chain")) as [r|e] eqn:Hget;
      [|discriminate].
    assert (Hskip :
      (status_code r = 200 -> valid_chain (json_chain r) = Ok true ->
       json_length r <= ml) ->
      resolve_loop requests_get rest nc ml = Ok res ->
      exists L : Z,
        ml <= L /\
        (forall node0 r0,
            node0 ∈ node :: rest ->
            requests_get ("http://" ++ node0 ++ "/chain") = Ok r0 ->
            status_code r0 = 200 ->
            valid_chain (json_chain r0) = Ok true ->
            json_length r0 <= L) /\
        ((res = nc /\ L = ml) \/
         (exists node0 r0,
             node0 ∈ node :: rest /\
             requests_get ("http://" ++ node0 ++ "/chain") = Ok r0 /\
             status_code r0 = 200 /\
             valid_chain (json_chain r0) = Ok true /\
             json_length r0 = L /\
             L > ml /\
             res = Some (json_chain r0)))).
    { intros Hnot Hres.
      destruct (IH nc ml res Hres) as (L & HL & Hbound & Hcase).
      exists L. split; [exact HL|]. split.
      - intros node0 r0 Hin Hget0 Hs0 Hv0.
        apply elem_of_cons in Hin as [->|Hin].
        + rewrite Hget in Hget0. injection Hget0 as <-.
          specialize (Hnot Hs0 Hv0). lia.
        + exact (Hbound node0 r0 Hin Hget0 Hs0 Hv0).
      - destruct Hcase as [Hsame|(node0 & r0 & Hin & Hrest)]; [left; exact Hsame|].
        right. exists node0, r0. split; [|exact Hrest].
        apply elem_of_cons. right. exact Hin. }
    destruct (Z.eqb_spec (status_code r) 200) as [Hs|Hs];
      [|apply Hskip; intros Hs'; contradiction].
    destruct (Z.gtb_spec (json_length r) ml) as [Hlen|Hlen];
      [|apply Hskip; intros _ _; exact Hlen].
    destruct (valid_chain (json_chain r)) as [[|]|e] eqn:Hv;
      [|apply Hskip; intros _ Hv'; discriminate|discriminate].
    intros Hres.
    destruct (IH (Some (json_chain r)) (json_length r) res Hres)
      as (L & HL & Hbound & Hcase).
    exists L. split; [lia|]. split.
    + intros node0 r0 Hin Hget0 Hs0 Hv0.
      apply elem_of_cons in Hin as [->|Hin].
      * rewrite Hget in Hget0. injection Hget0 as <-. exact HL.
      * exact (Hbound node0 r0 Hin Hget0 Hs0 Hv0).
    + right. destruct Hcase as [[-> ->]|(node0 & r0 & Hin & Hg & Hs0 & Hv0 & HL0 & Hgt & ->)].
      * exists node, r. repeat split; try assumption; try lia.
        apply elem_of_cons. left. reflexivity.
      * exists node0, r0. repeat split; try assumption; try lia.
        apply elem_of_cons. right. exact Hin.
Qed.

(** The loop returns when every peer answers and no answer with status 200
    carries an empty chain. *)
Lemma resolve_loop_returns (requests_get : string -> outcome Response)
    (neighbours : list string) :
  (forall node, node ∈ neighbours ->
     exists r, requests_get (chain_url node) = Ok r /\
               (status_code r = 200 -> json_chain r <> [])) ->
  forall (new_chain : option (list Block)) (max_length : Z),
    exists result, resolve_loop requests_get neighbours new_chain max_length = Ok result.
Proof.
  unfold chain_url.
  induction neighbours as [|node rest IH]; intros Hans nc ml; simpl.
  - eexists. reflexivity.
  - assert (Hrest : forall node0, node0 ∈ rest ->
              exists r, requests_get ("http://" ++ node0 ++ "/chain") = Ok r /\
                        (status_code r = 200 -> json_chain r <> [])).
    { intros node0 Hin. apply Hans. apply elem_of_cons. right. exact Hin. }
    destruct (Hans node) as (r & Hget & Hne); [apply elem_of_cons; left; reflexivity|].
    rewrite Hget.
    destruct (Z.eqb_spec (status_code r) 200) as [Hs|Hs]; [|apply IH; exact Hrest].
    destruct (json_length r >? ml); [|apply IH; exact Hrest].
    destruct (json_chain r) as [|b0 l] eqn:Hc; [specialize (Hne Hs); contradiction|].
    rewrite valid_chain_cons.
    destruct (pairs_linked b0 l); apply IH; exact Hrest.
Qed.

(** An exception of [requests.get] is not caught by the loop. *)
Lemma resolve_loop_raises (requests_get : string -> outcome Response)
    (neighbours : list string) (node : string) (e : exn) :
  node ∈ neighbours ->
  requests_get (chain_url node) = Raise e ->
  forall (new_chain : option (list Block)) (max_length : Z),
    exists e', resolve_loop requests_get neighbours new_chain max_length = Raise e'.
Proof.
  unfold chain_url. intros Hin Hget.
  induction neighbours as [|node0 rest IH]; intros nc ml; simpl.
  - apply elem_of_nil in Hin. contradiction.
  - apply elem_of_cons in Hin as [<-|Hin].
    + rewrite Hget. eexists. reflexivity.
    + specialize (IH Hin).
      destruct (requests_get ("http://" ++ node0 ++ "/chain")) as [r|e0];
        [|eexists; reflexivity].
      destruct (status_code r =? 200); [|apply IH].
      destruct (json_length r >? ml); [|apply IH].
      destruct (valid_chain (json_chain r)) as [[|]|e0]; [apply IH|apply IH|].
      eexists. reflexivity.
Qed.

(** A peer whose answer is no success is passed over. *)
Lemma resolve_loop_skips (requests_get : string -> outcome Response)
    (pre post : list string) (node : string) (r : Response) :
  requests_get (chain_url node) = Ok r ->
  status_code r <> 200 ->
  forall (new_chain : option (list Block)) (max_length : Z),
    resolve_loop requests_get (pre ++ node :: post) new_chain max_length
    = resolve_loop requests_get (pre ++ post) new_chain max_length.
Proof.
  unfold chain_url. intros Hget Hs.
  induction pre as [|node0 pre IH]; intros nc ml; simpl.
  - rewrite Hget. apply Z.eqb_neq in Hs. rewrite Hs. reflexivity.
  - destruct (requests_get ("http://" ++ node0 ++ "/chain")) as [r0|e0]; [|reflexivity].
    destruct (status_code r0 =? 200); [|apply IH].
    destruct (json_length r0 >? ml); [|apply IH].
    destruct (valid_chain (json_chain r0)) as [[|]|e0]; [apply IH|apply IH|reflexivity].
Qed.

(** What a pass that returns has done. *)
Lemma resolve_conflicts_returns (requests_get : string -> outcome Response)
    (self self' : Blockchain) (replaced : bool) :
  resolve_conflicts requests_get self = (Ok replaced, self') ->
  (replaced = true <->
   exists node r,
     node ∈ nodes self /\ requests_get (chain_url node) = Ok r /\ qualifies self r) /\
  (replaced = true ->
   exists node r,
     node ∈ nodes self /\ requests_get (chain_url node) = Ok r /\ qualifies self r /\
     self' = set_chain (json_chain r) self /\
     forall node' r',
       node' ∈ nodes self -> requests_get (chain_url node') = Ok r' ->
       qualifies self r' -> json_length r' <= json_length r) /\
  (replaced = false -> self' = self).
Proof.
  unfold resolve_conflicts.
  destruct (resolve_loop requests_get (elements (nodes self)) None
              (Z.of_nat (length (chain self)))) as [res|e] eqn:Hloop;
    [|discriminate].
  destruct (resolve_loop_adopts _ _ _ _ _ Hloop) as (L & HL & Hbound & Hcase).
  destruct Hcase as [[-> ->]|(node & r & Hin & Hget & Hs & Hv & HLr & Hgt & ->)].
  - intros [= <- <-]. split; [|split; [discriminate|reflexivity]].
    split; [discriminate|].
    intros (node & r & Hin & Hget & Hs & Hlen & Hv).
    apply elem_of_elements in Hin.
    specialize (Hbound node r Hin Hget Hs Hv). lia.
  - destruct (json_chain r) as [|b l] eqn:Hc; [discriminate|].
    intros [= <- <-]. apply elem_of_elements in Hin.
    assert (Hq : qualifies self r).
    { unfold qualifies. rewrite Hc. repeat split; [exact Hs | lia | exact Hv]. }
    split; [|split; [|discriminate]].
    + split; [|reflexivity]. intros _. exists node, r.
      split; [exact Hin | split; [exact Hget | exact Hq]].
    + intros _. exists node, r.
      split; [exact Hin | split; [exact Hget | split; [exact Hq | split]]].
      * rewrite Hc. reflexivity.
      * intros node' r' Hin' Hget' (Hs' & _ & Hv').
        apply elem_of_elements in Hin'.
        specialize (Hbound node' r' Hin' Hget' Hs' Hv'). lia.
Qed.

Lemma resolve_conflicts_raise_state (requests_get : string -> outcome Response)
    (self self' : Blockchain) (e : exn) :
  resolve_conflicts requests_get self = (Raise e, self') -> self' = self.
Proof.
  unfold resolve_conflicts.
  destruct (resolve_loop requests_get (elements (nodes self)) None
              (Z.of_nat (length (chain self)))) as [[[|b l]|]|e0];
    try discriminate.
  intros [= _ <-]. reflexivity.
Qed.

(** When every peer gives the same acceptable answer, the first one is
    adopted and the others, reporting no more, change nothing. *)
Lemma resolve_loop_same_answer (r : Response) (neighbours : list string) :
  status_code r = 200 ->
  forall c : list Block,
    resolve_loop (fun _ => Ok r) neighbours (Some c) (json_length r) = Ok (Some c).
Proof.
  intros Hs c. induction neighbours as [|node rest IH]; simpl; [reflexivity|].
  rewrite Hs, Z.gtb_ltb, Z.ltb_irrefl. simpl. exact IH.
Qed.

Lemma resolve_conflicts_same_answer (r : Response) (self : Blockchain) :
  nodes self <> ∅ ->
  status_code r = 200 ->
  json_length r > Z.of_nat (length (chain self)) ->
  valid_chain (json_chain r) = Ok true ->
  resolve_conflicts (fun _ => Ok r) self = (Ok true, set_chain (json_chain r) self).
Proof.
  intros Hpeers Hs Hlen Hv. unfold resolve_conflicts.
  destruct (elements (nodes self)) as [|node rest] eqn:Hel.
  - apply elements_empty_iff in Hel. apply leibniz_equiv in Hel. contradiction.
  - simpl. rewrite Hs. simpl.
    assert (Hgt : (json_length r >? Z.of_nat (length (chain self))) = true)
      by (apply Z.gtb_lt; lia).
    rewrite Hgt, Hv, (resolve_loop_same_answer r rest Hs).
    destruct (json_chain r) as [|b l]; [discriminate|reflexivity].
Qed.

Lemma resolve_conflicts_answered (requests_get : string -> outcome Response)
    (self : Blockchain) :
  (forall node, node ∈ nodes self ->
     exists r, requests_get (chain_url node) = Ok r /\
               (status_code r = 200 -> json_chain r <> [])) ->
  exists (replaced : bool) (self' : Blockchain),
    resolve_conflicts requests_get self = (Ok replaced, self').
Proof.
  intros Hans.
  destruct (resolve_conflicts requests_get self) as [[replaced|e] self'] eqn:Hrc.
  - exists replaced, self'. reflexivity.
  - exfalso. unfold resolve_conflicts in Hrc.
    destruct (resolve_loop_returns requests_get (elements (nodes self)))
      with (new_chain := @None (list Block))
           (max_length := Z.of_nat (length (chain self))) as [res Hres].
    + intros node Hin. apply Hans. apply elem_of_elements. exact Hin.
    + rewrite Hres in Hrc. destruct res as [[|b l]|]; discriminate.
Qed.



(** C6, as amended: a response that is no success (a status other than 200)
    only causes its peer to be passed over: the loop goes on as if the peer
    were not in the list, and a pass in which every peer answers so returns
    false with the ledger unchanged.  A transport failure is different:
    [requests.get] raises, nothing catches the exception, and the pass ends
    by raising, so no chain is adopted and the ledger is unchanged. *)
Theorem resolve_conflicts_peer_failures (requests_get : string -> outcome Response) :
  (forall (pre post : list string) (node : string) (r : Response)
          (new_chain : option (list Block)) (max_length : Z),
      requests_get (chain_url node) = Ok r ->
      status_code r <> 200 ->
      resolve_loop requests_get (pre ++ node :: post) new_chain max_length
      = resolve_loop requests_get (pre ++ post) new_chain max_length) /\
  (forall self : Blockchain,
      (forall node, node ∈ nodes self ->
         exists r, requests_get (chain_url node) = Ok r /\ status_code r <> 200) ->
      resolve_conflicts requests_get self = (Ok false, self)) /\
  (forall (self : Blockchain) (node : string) (e : exn),
      node ∈ nodes self ->
      requests_get (chain_url node) = Raise e ->
      exists e', resolve_conflicts requests_get self = (Raise e', self)).
Proof.
  split; [|split].
  - intros pre post node r nc ml Hget Hs.
    apply (resolve_loop_skips requests_get pre post node r Hget Hs).
  - intros self Hans.
    destruct (resolve_conflicts_answered requests_get self)
      as (replaced & self' & Hrc).
    + intros node Hin. destruct (Hans node Hin) as (r & Hget & Hs).
      exists r. split; [exact Hget | intros Hs'; contradiction].
    + destruct (resolve_conflicts_returns _ _ _ _ Hrc) as (Hiff & _ & Hsame).
      destruct replaced.
      * destruct (proj1 Hiff eq_refl) as (node & r & Hin & Hget & Hs & _).
        destruct (Hans node Hin) as (r' & Hget' & Hs').
        rewrite Hget in Hget'. injection Hget' as <-. contradiction.
      * rewrite Hrc, (Hsame eq_refl). reflexivity.
  - intros self node e Hin Hget. unfold resolve_conflicts.
    apply elem_of_elements in Hin.
    destruct (resolve_loop_raises requests_get _ node e Hin Hget None
                (Z.of_nat (length (chain self)))) as [e' He'].
    rewrite He'. exists e'. reflexivity.
Qed.

(** C9: adoption looks at the reported length only.  On a ledger with at
    least one peer, a response of status 200 whose reported length exceeds
    the local length and whose chain [valid_chain] accepts is adopted
    whatever the number of blocks of that chain; so when the local chain has
    two blocks or more there is such a response, with fewer blocks than the
    local chain, for which the call returns true and leaves the ledger with
    the strictly shorter chain. *)
Theorem resolve_conflicts_reported_length (self : Blockchain) :
  nodes self <> ∅ ->
  (forall r : Response,
      status_code r = 200 ->
      json_length r > Z.of_nat (length (chain self)) ->
      valid_chain (json_chain r) = Ok true ->
      resolve_conflicts (fun _ => Ok r) self
      = (Ok true, set_chain (json_chain r) self)) /\
  ((1 < length (chain self))%nat ->
   exists r : Response,
     status_code r = 200 /\
     json_length r > Z.of_nat (length (chain self)) /\
     valid_chain (json_chain r) = Ok true /\
     (length (json_chain r) < length (chain self))%nat /\
     resolve_conflicts (fun _ => Ok r) self
     = (Ok true, set_chain (json_chain r) self) /\
     (length (chain (set_chain (json_chain r) self)) < length (chain self))%nat).
Proof.
  intros Hpeers. split.
  - intros r Hs Hlen Hv. exact (resolve_conflicts_same_answer r self Hpeers Hs Hlen Hv).
  - intros Hlong. destruct (chain self) as [|b0 rest] eqn:Hc; [simpl in Hlong; lia|].
    exists {| status_code := 200;
              json_length := Z.of_nat (length (b0 :: rest)) + 1;
              json_chain := [b0] |}.
    simpl in Hlong |- *.
    assert (Hv : valid_chain [b0] = Ok true) by apply valid_chain_cons.
    split; [reflexivity|]. split; [lia|]. split; [exact Hv|]. split; [lia|].
    split; [|lia].
    apply resolve_conflicts_same_answer; simpl; [exact Hpeers | reflexivity | | exact Hv].
    rewrite Hc. simpl. lia.
Qed.

(** ** The chain invariant *)

Lemma chain_linked_snoc (chain : list Block) (lb block : Block) :
  chain_linked chain ->
  last chain = Some lb ->
  linked lb block ->
  chain_linked (chain ++ [block]).
Proof.
  rewrite !chain_linked_succ. intros Hl Hlast Hnew i prev cur Hp Hc.
  destruct (decide (S i < length chain)%nat) as [Hlt|Hge].
  - rewrite lookup_app_l in Hp by lia. rewrite lookup_app_l in Hc by lia.
    exact (Hl i prev cur Hp Hc).
  - destruct (decide (S i = length chain)) as [Heq|Hne].
    + rewrite lookup_app_l in Hp by lia.
      rewrite lookup_app_r in Hc by lia.
      replace (S i - length chain)%nat with 0%nat in Hc by lia.
      simpl in Hc. injection Hc as <-.
      rewrite last_lookup in Hlast.
      replace (pred (length chain)) with i in Hlast by lia.
      rewrite Hlast in Hp. injection Hp as <-. exact Hnew.
    + apply lookup_lt_Some in Hc. rewrite length_app in Hc. simpl in Hc. lia.
Qed.

Lemma valid_chain_linked (c : list Block) :
  valid_chain c = Ok true -> c <> [] /\ chain_linked c.
Proof.
  destruct c as [|b0 rest]; [discriminate|].
  rewrite valid_chain_cons. intros [= Hp].
  split; [discriminate | apply pairs_linked_chain_linked; exact Hp].
Qed.

Lemma mine_preserves (fuel : nat) (now : float) (self self' : Blockchain)
    (o : outcome Block) :
  chain self <> [] /\ chain_linked (chain self) ->
  mine fuel now self = Some (o, self') ->
  chain self' <> [] /\ chain_linked (chain self').
Proof.
  intros [Hne Hl] Hmine.
  destruct (last (chain self)) as [lb|] eqn:Hlast.
  - destruct (proof_of_work fuel lb) as [p|] eqn:Hpow.
    + rewrite (mine_spec fuel now self lb p Hlast Hpow) in Hmine.
      injection Hmine as _ <-. simpl. split.
      * intros Hnil. apply app_eq_nil in Hnil. destruct Hnil as [_ Hnil]. discriminate.
      * apply (chain_linked_snoc _ lb); [exact Hl | exact Hlast |].
        split; [reflexivity|]. simpl.
        unfold proof_of_work in Hpow. apply proof_of_work_loop_spec in Hpow.
        exact (proj1 (proj2 Hpow)).
    + unfold mine, last_block in Hmine. rewrite Hlast, Hpow in Hmine. discriminate.
  - unfold mine, last_block in Hmine. rewrite Hlast in Hmine.
    injection Hmine as _ <-. split; assumption.
Qed.

Lemma reachable_invariant (self : Blockchain) :
  reachable self -> chain self <> [] /\ chain_linked (chain self).
Proof.
  induction 1 as [now | self s r a _ IH | self self' fuel now o _ IH Hmine
                 | self address _ IH | self requests_get _ IH].
  - simpl. split; [discriminate|].
    apply chain_linked_succ. intros i prev cur _ Hc. destruct i; discriminate.
  - rewrite new_transaction_chain. exact IH.
  - exact (mine_preserves fuel now self self' o IH Hmine).
  - rewrite register_node_chain. exact IH.
  - destruct (resolve_conflicts requests_get self) as [[replaced|e] self'] eqn:Hrc;
      simpl.
    + destruct (resolve_conflicts_returns _ _ _ _ Hrc) as (_ & Hwin & Hsame).
      destruct replaced.
      * destruct (Hwin eq_refl) as (node & r & _ & _ & (_ & _ & Hv) & -> & _).
        simpl. apply valid_chain_linked. exact Hv.
      * rewrite (Hsame eq_refl). exact IH.
    + rewrite (resolve_conflicts_raise_state _ _ _ _ Hrc). exact IH.
Qed.

(** C2: in every state that a node reaches from a fresh [Blockchain] by
    submitting transactions, serving [/mine] requests (a search by
    [proof_of_work], then [new_block] with the hash of the block that was
    last), registering peers and running consensus passes, the chain is not
    empty and every block at an index [i > 0] carries the hash of the block
    at [i - 1] and a proof that [valid_proof] accepts for that block's proof
    and hash. *)
Theorem chain_invariant (self : Blockchain) :
  reachable self ->
  chain self <> [] /\
  forall (i : nat) (prev cur : Block),
    (0 < i)%nat ->
    chain self !! (i - 1)%nat = Some prev ->
    chain self !! i = Some cur ->
    previous_hash cur = PStr (hash prev) /\
    valid_proof (proof prev) (proof cur) (hash prev) = true.
Proof.
  intros Hreach. destruct (reachable_invariant self Hreach) as [Hne Hl].
  split; [exact Hne|]. exact Hl.
Qed.

(** * Further properties of the code *)

(** ** [new_block] and [new_transaction] at their edges *)

Lemma last_block_empty (self : Blockchain) :
  last (chain self) = None <-> chain self = [].
Proof. apply last_None. Qed.

(** X1: [new_block] raises exactly when the chain is empty and no truthy
    [previous_hash] is given, for then it evaluates [self.chain[-1]]; the
    exception is [IndexError] and the ledger is as before, pool included.
    In every other case it returns the block it has put at the end of the
    chain, holding the whole pool, and the pool is empty. *)
Theorem new_block_failure (now : float) (p : Z) (given : option pyval)
    (self : Blockchain) :
  (new_block now p given self = (Raise IndexError, self) <->
   chain self = [] /\
   match given with Some v => truthy v = false | None => True end) /\
  (forall (e : exn) (self' : Blockchain),
      new_block now p given self = (Raise e, self') ->
      e = IndexError /\ self' = self) /\
  (forall (block : Block) (self' : Blockchain),
      new_block now p given self = (Ok block, self') ->
      chain self' = (chain self ++ [block])%list /\
      transactions block = current_transactions self /\
      current_transactions self' = [] /\
      nodes self' = nodes self).
Proof.
  unfold new_block, bind, get, put, ret, last_block.
  destruct (last (chain self)) as [lb|] eqn:Hlast.
  - assert (Hne : chain self <> []).
    { intros Hnil. rewrite Hnil in Hlast. discriminate. }
    destruct given as [v|]; [destruct (truthy v)|]; simpl; rewrite ?Hlast;
      (split; [split; [discriminate | intros [Hnil _]; contradiction]|]);
      (split; [discriminate|]);
      intros block self' [= <- <-]; simpl; repeat split.
  - apply last_block_empty in Hlast as Hnil.
    destruct given as [v|]; [destruct (truthy v) eqn:Hv|]; simpl; rewrite ?Hlast.
    + split; [split; [discriminate | intros [_ Hf]; discriminate]|].
      split; [discriminate|].
      intros block self' [= <- <-]. simpl. repeat split.
    + split; [split; [intros _; split; [exact Hnil | reflexivity] | reflexivity]|].
      split; [|discriminate].
      intros e self' [= <- <-]. split; reflexivity.
    + split; [split; [intros _; split; [exact Hnil | exact I] | reflexivity]|].
      split; [|discriminate].
      intros e self' [= <- <-]. split; reflexivity.
Qed.

Lemma reachable_last (self : Blockchain) :
  reachable self -> exists lb, last (chain self) = Some lb.
Proof.
  intros Hreach. destruct (reachable_invariant self Hreach) as [Hne _].
  destruct (last (chain self)) as [lb|] eqn:Hlast; [exists lb; reflexivity|].
  apply last_block_empty in Hlast. contradiction.
Qed.


(** ** The route [/mine] *)



(** ** Chains that are a node's own work *)

Lemma mined_locally_reachable (self : Blockchain) :
  mined_locally self -> reachable self.
Proof.
  induction 1 as [now | self s r a _ IH | self self' fuel now o _ IH Hmine
                 | self address _ IH].
  - apply reach_init.
  - apply reach_new_transaction. exact IH.
  - exact (reach_mine self self' fuel now o IH Hmine).
  - apply reach_register_node. exact IH.
Qed.

Lemma own_work_snoc (c : list Block) (block : Block) :
  own_work c ->
  c <> [] ->
  index block = Z.of_nat (length c) + 1 ->
  last (transactions block) = Some reward ->
  own_work (c ++ [block]).
Proof.
  intros Hc Hne Hidx Hlast i b Hb.
  destruct (decide (i < length c)%nat) as [Hlt|Hge].
  - rewrite lookup_app_l in Hb by lia. exact (Hc i b Hb).
  - rewrite lookup_app_r in Hb by lia.
    destruct (i - length c)%nat as [|k] eqn:Hk; [|destruct k; discriminate].
    simpl in Hb. injection Hb as <-.
    assert (i = length c) as -> by lia.
    split; [exact Hidx|].
    destruct c as [|b0 c]; [contradiction|]. simpl. exact Hlast.
Qed.

Lemma mined_locally_own_work (self : Blockchain) :
  mined_locally self -> own_work (chain self).
Proof.
  induction 1 as [now | self s r a _ IH | self self' fuel now o Hloc IH Hmine
                 | self address _ IH].
  - intros i b Hb. destruct i as [|i]; [|destruct i; discriminate].
    simpl in Hb. injection Hb as <-. simpl. repeat split.
  - rewrite new_transaction_chain. exact IH.
  - destruct (reachable_last self (mined_locally_reachable self Hloc)) as [lb Hlast].
    destruct (proof_of_work fuel lb) as [p|] eqn:Hpow.
    + rewrite (mine_spec fuel now self lb p Hlast Hpow) in Hmine.
      injection Hmine as _ <-. simpl. apply own_work_snoc.
      * exact IH.
      * intros Hnil. rewrite Hnil in Hlast. discriminate.
      * reflexivity.
      * simpl. apply last_snoc.
    + unfold mine, last_block in Hmine. rewrite Hlast, Hpow in Hmine. discriminate.
  - rewrite register_node_chain. exact IH.
Qed.

(** X4: as long as a node has adopted no chain from a peer, the block at
    position [i] of its chain has index [i + 1], and the index that
    [new_transaction] returns is the index of the block in which the next
    [/mine] request puts the transaction. *)
Theorem announced_index (self : Blockchain) :
  mined_locally self ->
  (forall (i : nat) (b : Block),
      chain self !! i = Some b -> index b = Z.of_nat i + 1) /\
  (forall (sender recipient : string) (amount : Z) (fuel : nat) (now : float)
          (o : outcome Block) (self' : Blockchain),
      mine fuel now (snd (new_transaction sender recipient amount self))
      = Some (o, self') ->
      exists block : Block,
        o = Ok block /\
        fst (new_transaction sender recipient amount self) = Ok (index block) /\
        {| sender := sender; recipient := recipient; amount := amount |}
        ∈ transactions block).
Proof.
  intros Hloc. pose proof (mined_locally_own_work self Hloc) as Hown.
  split; [intros i b Hb; exact (proj1 (Hown i b Hb))|].
  intros s r a fuel now o self' Hmine.
  destruct (reachable_last self (mined_locally_reachable self Hloc)) as [lb Hlast].
  rewrite (new_transaction_spec s r a self lb Hlast) in Hmine |- *.
  cbn [fst snd] in Hmine |- *.
  set (st := set_current_transactions _ self) in Hmine.
  destruct (proof_of_work fuel lb) as [p|] eqn:Hpow.
  - rewrite (mine_spec fuel now st lb p Hlast Hpow) in Hmine.
    injection Hmine as <- _. eexists. split; [reflexivity|]. simpl. split.
    + f_equal. rewrite last_lookup in Hlast.
      destruct (Hown _ lb Hlast) as [Hidx _]. rewrite Hidx.
      assert (chain self <> []) by (intros Hnil; rewrite Hnil in Hlast; discriminate).
      destruct (chain self); [contradiction|]. simpl. lia.
    + apply elem_of_app. left. apply elem_of_app. right. apply list_elem_of_here.
  - unfold mine, last_block in Hmine. subst st. simpl in Hmine.
    rewrite Hlast, Hpow in Hmine. discriminate.
Qed.

(** X5: as long as a node has adopted no chain from a peer, the first block
    of its chain is the genesis block (no transactions, proof 100,
    [previous_hash] the integer 1) and every later block ends with the
    reward transaction to this node. *)
Theorem mined_blocks_reward (self : Blockchain) :
  mined_locally self ->
  (exists genesis : Block,
      chain self !! 0%nat = Some genesis /\
      transactions genesis = [] /\ proof genesis = 100 /\
      previous_hash genesis = PInt 1) /\
  (forall (i : nat) (b : Block),
      (0 < i)%nat ->
      chain self !! i = Some b ->
      exists txs : list Transaction,
        transactions b
        = (txs ++ [{| sender := "0"; recipient := node_identifier; amount := 1 |}])%list).
Proof.
  intros Hloc. pose proof (mined_locally_own_work self Hloc) as Hown.
  destruct (reachable_invariant self (mined_locally_reachable self Hloc)) as [Hne _].
  split.
  - destruct (chain self) as [|b0 rest] eqn:Hc; [contradiction|].
    exists b0. split; [reflexivity|]. exact (proj2 (Hown 0%nat b0 eq_refl)).
  - intros i b Hi Hb. destruct i as [|i]; [lia|].
    destruct (Hown (S i) b Hb) as [_ Hlast]. simpl in Hlast.
    apply last_Some in Hlast. destruct Hlast as [txs Htxs].
    exists txs. exact Htxs.
Qed.

(** ** [valid_chain] on the chains of nodes *)

(** X6: the chain of every reachable ledger passes [valid_chain], so what
    such a node serves on [/chain] is a reply of status 200 whose chain is
    accepted and whose [length] is the true, positive number of blocks. *)
Theorem own_chain_valid (self : Blockchain) :
  reachable self ->
  valid_chain (chain self) = Ok true /\
  status_code (full_chain self) = 200 /\
  valid_chain (json_chain (full_chain self)) = Ok true /\
  json_length (full_chain self) = Z.of_nat (length (json_chain (full_chain self))) /\
  1 <= json_length (full_chain self).
Proof.
  intros Hreach. destruct (reachable_invariant self Hreach) as [Hne Hl].
  assert (Hv : valid_chain (chain self) = Ok true).
  { destruct (chain self) as [|b0 rest]; [contradiction|].
    rewrite valid_chain_cons. f_equal. apply pairs_linked_chain_linked. exact Hl. }
  split; [exact Hv|]. split; [reflexivity|]. split; [exact Hv|].
  split; [reflexivity|]. simpl.
  destruct (chain self); [contradiction|]. simpl. lia.
Qed.

Lemma default_last_cons (l : list Block) :
  forall a b : Block, default a (last (b :: l)) = default b (last l).
Proof.
  induction l as [|x l IH]; intros a b; [reflexivity|].
  change (last (b :: x :: l)) with (last (x :: l)).
  rewrite (IH a x), (IH b x). reflexivity.
Qed.

Lemma pairs_linked_app (l1 l2 : list Block) (b2 : Block) :
  forall a : Block,
    pairs_linked a (l1 ++ b2 :: l2)
    = pairs_linked a l1
      && (py_eqb (previous_hash b2) (PStr (hash (default a (last l1))))
          && valid_proof (proof (default a (last l1))) (proof b2)
               (hash (default a (last l1))))
      && pairs_linked b2 l2.
Proof.
  induction l1 as [|b l1 IH]; intros a; simpl.
  - reflexivity.
  - rewrite IH, (default_last_cons l1 a b), !andb_assoc. reflexivity.
Qed.

Lemma valid_chain_app_bool (c1 c2 : list Block) (b0 b1 b2 : Block) :
  c1 !! 0%nat = Some b0 ->
  last c1 = Some b1 ->
  head c2 = Some b2 ->
  valid_chain (c1 ++ c2)
  = Ok (pairs_linked b0 (tail c1)
        && (py_eqb (previous_hash b2) (PStr (hash b1))
            && valid_proof (proof b1) (proof b2) (hash b1))
        && pairs_linked b2 (tail c2)).
Proof.
  intros H0 Hlast Hhead.
  destruct c1 as [|a l1]; [discriminate|]. simpl in H0. injection H0 as ->.
  destruct c2 as [|b l2]; [discriminate|]. simpl in Hhead. injection Hhead as ->.
  simpl. rewrite valid_chain_cons, pairs_linked_app.
  rewrite <- (default_last_cons l1 b0 b0), Hlast. reflexivity.
Qed.

(** X7: [valid_chain] composes: two non-empty chains put end to end are
    accepted exactly when each of them is and the first block of the second
    is linked to the last block of the first.  So every non-empty prefix
    and every non-empty suffix of an accepted chain is accepted. *)
Theorem valid_chain_app (c1 c2 : list Block) (b1 b2 : Block) :
  last c1 = Some b1 ->
  head c2 = Some b2 ->
  valid_chain (c1 ++ c2) = Ok true <->
  valid_chain c1 = Ok true /\ valid_chain c2 = Ok true /\ linked b1 b2.
Proof.
  intros Hlast Hhead.
  destruct c1 as [|a l1] eqn:Hc1; [discriminate|].
  destruct c2 as [|b l2] eqn:Hc2; [discriminate|].
  simpl in Hhead. injection Hhead as ->.
  rewrite (valid_chain_app_bool (a :: l1) (b2 :: l2) a b1 b2 eq_refl Hlast eq_refl).
  rewrite !valid_chain_cons. simpl.
  rewrite <- linked_checks. split.
  - intros [= Hall]. apply andb_true_iff in Hall as [Hall H2].
    apply andb_true_iff in Hall as [H1 Hl].
    rewrite H1, H2. repeat split. exact Hl.
  - intros ([= ->] & [= ->] & ->). reflexivity.
Qed.

Lemma valid_chain_snoc (c : list Block) (lb block : Block) :
  last c = Some lb ->
  valid_chain (c ++ [block]) = Ok true <->
  valid_chain c = Ok true /\ linked lb block.
Proof.
  intros Hlast.
  destruct c as [|a l] eqn:Hc; [discriminate|].
  rewrite (valid_chain_app_bool (a :: l) [block] a lb block eq_refl Hlast eq_refl).
  rewrite valid_chain_cons. simpl. rewrite andb_true_r, <- linked_checks. split.
  - intros [= Hall]. apply andb_true_iff in Hall as [H1 Hl].
    rewrite H1. split; [reflexivity | exact Hl].
  - intros ([= ->] & ->). reflexivity.
Qed.

(** X8: [new_block] checks nothing.  On a ledger with a last block it
    appends a block for any proof, and the chain it leaves passes
    [valid_chain] exactly when the chain passed before, the
    [previous_hash] it stored is the hash of the block that was last, and
    the proof is one that [valid_proof] accepts for that block. *)
Theorem new_block_unchecked (now : float) (p : Z) (given : option pyval)
    (self : Blockchain) (lb : Block) :
  last (chain self) = Some lb ->
  exists (block : Block) (self' : Blockchain),
    new_block now p given self = (Ok block, self') /\
    (valid_chain (chain self') = Ok true <->
     valid_chain (chain self) = Ok true /\
     match given with
     | Some v => if truthy v then v else PStr (hash lb)
     | None => PStr (hash lb)
     end = PStr (hash lb) /\
     valid_proof (proof lb) p (hash lb) = true).
Proof.
  intros Hlast. eexists. eexists. split.
  - apply (new_block_spec now p given self lb Hlast).
  - simpl. rewrite (valid_chain_snoc _ lb _ Hlast). unfold linked. simpl.
    unfold previous_hash_or. reflexivity.
Qed.

(** X9: the last block of a chain is checked only through its
    [previous_hash] and its proof: two chains that differ in the last block
    alone, these two fields being the same, get the same verdict from
    [valid_chain], whatever the transactions, index and timestamp of that
    block. *)
Theorem last_block_payload (c : list Block) (b b' : Block) :
  proof b' = proof b ->
  previous_hash b' = previous_hash b ->
  valid_chain (c ++ [b']) = valid_chain (c ++ [b]).
Proof.
  intros Hproof Hprev. destruct c as [|a l]; [reflexivity|].
  assert (Hl : exists lb, last (a :: l) = Some lb).
  { destruct (last (a :: l)) as [lb|] eqn:Hlast; [exists lb; reflexivity|].
    apply last_None in Hlast. discriminate. }
  destruct Hl as [lb Hlast].
  rewrite (valid_chain_app_bool (a :: l) [b'] a lb b' eq_refl Hlast eq_refl).
  rewrite (valid_chain_app_bool (a :: l) [b] a lb b eq_refl Hlast eq_refl).
  rewrite Hproof, Hprev. reflexivity.
Qed.

(** ** More on [resolve_conflicts] *)

Lemma resolve_conflicts_state (requests_get : string -> outcome Response)
    (self : Blockchain) :
  exists c : list Block,
    snd (resolve_conflicts requests_get self) = set_chain c self.
Proof.
  unfold resolve_conflicts.
  destruct (resolve_loop requests_get (elements (nodes self)) None
              (Z.of_nat (length (chain self)))) as [[[|b l]|]|e]; simpl.
  - exists (chain self). destruct self; reflexivity.
  - exists (b :: l). reflexivity.
  - exists (chain self). destruct self; reflexivity.
  - exists (chain self). destruct self; reflexivity.
Qed.

(** X10: a consensus pass touches the chain only: the pool of pending
    transactions and the peers are as before, whether the pass returns true,
    returns false or raises.  So the pool is not reconciled with an adopted
    chain: the block that a [/mine] request forges after the pass holds the
    whole pool from before the pass, then the reward. *)
Theorem resolve_conflicts_keeps_pool (requests_get : string -> outcome Response)
    (self : Blockchain) :
  current_transactions (snd (resolve_conflicts requests_get self))
  = current_transactions self /\
  nodes (snd (resolve_conflicts requests_get self)) = nodes self /\
  (forall (fuel : nat) (now : float) (block : Block) (self' : Blockchain),
      mine fuel now (snd (resolve_conflicts requests_get self)) = Some (Ok block, self') ->
      transactions block
      = (current_transactions self ++
         [{| sender := "0"; recipient := node_identifier; amount := 1 |}])%list).
Proof.
  destruct (resolve_conflicts_state requests_get self) as [c Hstate].
  rewrite Hstate. split; [reflexivity|]. split; [reflexivity|].
  intros fuel now block self' Hmine.
  destruct (last (chain (set_chain c self))) as [lb|] eqn:Hlast.
  - destruct (proof_of_work fuel lb) as [p|] eqn:Hpow.
    + rewrite (mine_spec fuel now _ lb p Hlast Hpow) in Hmine.
      injection Hmine as <- _. reflexivity.
    + unfold mine, last_block in Hmine. rewrite Hlast, Hpow in Hmine. discriminate.
  - unfold mine, last_block in Hmine. rewrite Hlast in Hmine. discriminate.
Qed.

(** The loop, with the place of the adopted peer in the iteration order. *)
Lemma resolve_loop_first (requests_get : string -> outcome Response)
    (neighbours : list string) :
  forall (new_chain : option (list Block)) (max_length : Z)
         (result : option (list Block)),
    resolve_loop requests_get neighbours new_chain max_length = Ok result ->
    (result = new_chain /\
     forall node' r',
       node' ∈ neighbours -> requests_get (chain_url node') = Ok r' ->
       status_code r' = 200 -> valid_chain (json_chain r') = Ok true ->
       json_length r' <= max_length) \/
    exists (pre post : list string) (node : string) (r : Response),
      neighbours = (pre ++ node :: post)%list /\
      requests_get (chain_url node) = Ok r /\
      status_code r = 200 /\
      valid_chain (json_chain r) = Ok true /\
      json_length r > max_length /\
      result = Some (json_chain r) /\
      (forall node' r',
          node' ∈ pre -> requests_get (chain_url node') = Ok r' ->
          status_code r' = 200 -> valid_chain (json_chain r') = Ok true ->
          json_length r' < json_length r) /\
      (forall node' r',
          node' ∈ post -> requests_get (chain_url node') = Ok r' ->
          status_code r' = 200 -> valid_chain (json_chain r') = Ok true ->
          json_length r' <= json_length r).
Proof.
  unfold chain_url.
  induction neighbours as [|node rest IH]; intros nc ml res; simpl.
  - intros [= <-]. left. split; [reflexivity|].
    intros node' r' Hin. apply elem_of_nil in Hin. contradiction.
  - destruct (requests_get ("http://" ++ node ++ "/chain")) as [r|e] eqn:Hget;
      [|discriminate].
    assert (Hskip :
      (status_code r = 200 -> valid_chain (json_chain r) = Ok true ->
       json_length r <= ml) ->
      resolve_loop requests_get rest nc ml = Ok res ->
      (res = nc /\
       forall node' r',
         node' ∈ node :: rest ->
         requests_get ("http://" ++ node' ++ "/chain") = Ok r' ->
         status_code r' = 200 -> valid_chain (json_chain r') = Ok true ->
         json_length r' <= ml) \/
      exists (pre post : list string) (node0 : string) (r0 : Response),
        node :: rest = (pre ++ node0 :: post)%list /\
        requests_get ("http://" ++ node0 ++ "/chain") = Ok r0 /\
        status_code r0 = 200 /\
        valid_chain (json_chain r0) = Ok true /\
        json_length r0 > ml /\
        res = Some (json_chain r0) /\
        (forall node' r',
            node' ∈ pre -> requests_get ("http://" ++ node' ++ "/chain") = Ok r' ->
            status_code r' = 200 -> valid_chain (json_chain r') = Ok true ->
            json_length r' < json_length r0) /\
        (forall node' r',
            node' ∈ post -> requests_get ("http://" ++ node' ++ "/chain") = Ok r' ->
            status_code r' = 200 -> valid_chain (json_chain r') = Ok true ->
            json_length r' <= json_length r0)).
    { intros Hnot Hres.
      destruct (IH nc ml res Hres)
        as [[Hsame Hb]
           |(pre & post & node0 & r0 & -> & Hg & Hs & Hv & Hgt & Hr & Hpre & Hpost)].
      - left. split; [exact Hsame|].
        intros node' r' Hin Hget' Hs' Hv'.
        apply elem_of_cons in Hin as [->|Hin].
        + rewrite Hget in Hget'. injection Hget' as <-. exact (Hnot Hs' Hv').
        + exact (Hb node' r' Hin Hget' Hs' Hv').
      - right. exists (node :: pre), post, node0, r0.
        split; [reflexivity|]. repeat (split; [assumption|]). split; [|exact Hpost].
        intros node' r' Hin Hget' Hs' Hv'.
        apply elem_of_cons in Hin as [->|Hin].
        + rewrite Hget in Hget'. injection Hget' as <-.
          specialize (Hnot Hs' Hv'). lia.
        + exact (Hpre node' r' Hin Hget' Hs' Hv'). }
    destruct (Z.eqb_spec (status_code r) 200) as [Hs|Hs];
      [|apply Hskip; intros Hs'; contradiction].
    destruct (Z.gtb_spec (json_length r) ml) as [Hlen|Hlen];
      [|apply Hskip; intros _ _; exact Hlen].
    destruct (valid_chain (json_chain r)) as [[|]|e] eqn:Hv;
      [|apply Hskip; intros _ Hv'; discriminate|discriminate].
    clear Hskip. intros Hres. right.
    destruct (IH (Some (json_chain r)) (json_length r) res Hres)
      as [[Hsame Hb]
         |(pre & post & node0 & r0 & -> & Hg & Hs0 & Hv0 & Hgt & Hr & Hpre & Hpost)].
    + exists [], rest, node, r. split; [reflexivity|].
      split; [exact Hget|]. split; [exact Hs|]. split; [exact Hv|].
      split; [lia|]. split; [exact Hsame|]. split; [|exact Hb].
      intros node' r' Hin. apply elem_of_nil in Hin. contradiction.
    + exists (node :: pre), post, node0, r0. split; [reflexivity|].
      split; [exact Hg|]. split; [exact Hs0|]. split; [exact Hv0|].
      split; [lia|]. split; [exact Hr|]. split; [|exact Hpost].
      intros node' r' Hin Hget' Hs' Hv'.
      apply elem_of_cons in Hin as [->|Hin].
      * rewrite Hget in Hget'. injection Hget' as <-. lia.
      * exact (Hpre node' r' Hin Hget' Hs' Hv').
Qed.

(** X11: ties go to the peer that is visited first.  When a pass returns
    true, the adopted chain is that of the first peer, in the order in which
    the peer set is iterated, whose response reaches the greatest reported
    length among the responses of status 200 with a valid chain: every such
    response before it reports strictly less, every one after it no more. *)
Theorem resolve_conflicts_first_wins (requests_get : string -> outcome Response)
    (self self' : Blockchain) :
  resolve_conflicts requests_get self = (Ok true, self') ->
  exists (pre post : list string) (node : string) (r : Response),
    elements (nodes self) = (pre ++ node :: post)%list /\
    requests_get (chain_url node) = Ok r /\
    qualifies self r /\
    chain self' = json_chain r /\
    (forall node' r',
        node' ∈ pre -> requests_get (chain_url node') = Ok r' ->
        status_code r' = 200 -> valid_chain (json_chain r') = Ok true ->
        json_length r' < json_length r) /\
    (forall node' r',
        node' ∈ post -> requests_get (chain_url node') = Ok r' ->
        status_code r' = 200 -> valid_chain (json_chain r') = Ok true ->
        json_length r' <= json_length r).
Proof.
  unfold resolve_conflicts.
  destruct (resolve_loop requests_get (elements (nodes self)) None
              (Z.of_nat (length (chain self)))) as [res|e] eqn:Hloop;
    [|discriminate].
  destruct (resolve_loop_first _ _ _ _ _ Hloop)
    as [[-> _]|(pre & post & node & r & Hel & Hget & Hs & Hv & Hgt & -> & Hpre & Hpost)];
    [discriminate|].
  destruct (json_chain r) as [|b l] eqn:Hc; [discriminate|].
  intros [= <-]. exists pre, post, node, r.
  split; [exact Hel|]. split; [exact Hget|]. split.
  - unfold qualifies. rewrite Hc. repeat split; [exact Hs | lia | exact Hv].
  - rewrite Hc. split; [reflexivity|]. split; [exact Hpre | exact Hpost].
Qed.

Lemma valid_chain_nonempty (c : list Block) (b : bool) :
  valid_chain c = Ok b -> c <> [].
Proof. destruct c; [discriminate | intros _; discriminate]. Qed.

(** X12: the longest-chain rule among nodes that serve their own chain.
    When every peer answers as the route [/chain] does for a ledger whose
    chain [valid_chain] accepts, the pass returns; it returns true exactly
    when some peer's chain has more blocks than the local one; afterwards
    the local chain is the local chain of before or the chain of a peer, and
    it has at least as many blocks as the chain of before and as the chain
    of every peer. *)
Theorem resolve_conflicts_honest_peers (requests_get : string -> outcome Response)
    (self : Blockchain) :
  (forall node, node ∈ nodes self ->
     exists peer : Blockchain,
       requests_get (chain_url node) = Ok (full_chain peer) /\
       valid_chain (chain peer) = Ok true) ->
  exists (replaced : bool) (self' : Blockchain),
    resolve_conflicts requests_get self = (Ok replaced, self') /\
    (replaced = true <->
     exists node peer,
       node ∈ nodes self /\ requests_get (chain_url node) = Ok (full_chain peer) /\
       (length (chain self) < length (chain peer))%nat) /\
    (chain self' = chain self \/
     exists node peer,
       node ∈ nodes self /\ requests_get (chain_url node) = Ok (full_chain peer) /\
       chain self' = chain peer) /\
    (length (chain self) <= length (chain self'))%nat /\
    (forall node peer,
        node ∈ nodes self -> requests_get (chain_url node) = Ok (full_chain peer) ->
        (length (chain peer) <= length (chain self'))%nat).
Proof.
  intros Hpeers.
  destruct (resolve_conflicts_answered requests_get self) as (replaced & self' & Hrc).
  { intros node Hin. destruct (Hpeers node Hin) as (peer & Hget & Hv).
    exists (full_chain peer). split; [exact Hget|].
    intros _. exact (valid_chain_nonempty _ _ Hv). }
  exists replaced, self'. split; [exact Hrc|].
  destruct (resolve_conflicts_returns _ _ _ _ Hrc) as (Hiff & Hwin & Hsame).
  assert (Hq : forall node peer,
             node ∈ nodes self -> requests_get (chain_url node) = Ok (full_chain peer) ->
             (qualifies self (full_chain peer) <->
              (length (chain self) < length (chain peer))%nat)).
  { intros node peer Hin Hget. destruct (Hpeers node Hin) as (peer' & Hget' & Hv).
    rewrite Hget in Hget'. injection Hget' as Hlen Hchain.
    unfold qualifies. simpl. rewrite Hchain. split.
    - intros (_ & Hgt & _). lia.
    - intros Hlt. repeat split; [lia | exact Hv]. }
  assert (Hiff' : replaced = true <->
            exists node peer,
              node ∈ nodes self /\ requests_get (chain_url node) = Ok (full_chain peer) /\
              (length (chain self) < length (chain peer))%nat).
  { rewrite Hiff. split.
    - intros (node & r & Hin & Hget & Hqual).
      destruct (Hpeers node Hin) as (peer & Hget' & _).
      rewrite Hget in Hget'. injection Hget' as ->.
      exists node, peer. split; [exact Hin|]. split; [exact Hget|].
      apply (Hq node peer Hin Hget). exact Hqual.
    - intros (node & peer & Hin & Hget & Hlt).
      exists node, (full_chain peer). split; [exact Hin|]. split; [exact Hget|].
      apply (Hq node peer Hin Hget). exact Hlt. }
  split; [exact Hiff'|].
  destruct replaced.
  - destruct (Hwin eq_refl) as (node & r & Hin & Hget & Hqual & -> & Hmax).
    destruct (Hpeers node Hin) as (peer & Hget' & _).
    rewrite Hget in Hget'. injection Hget' as ->. simpl.
    apply (Hq node peer Hin Hget) in Hqual as Hlt.
    split; [right; exists node, peer; repeat split; assumption|].
    split; [lia|].
    intros node' peer' Hin' Hget'.
    destruct (decide (length (chain self) < length (chain peer'))%nat) as [Hlt'|Hge].
    + apply (Hq node' peer' Hin' Hget') in Hlt'.
      specialize (Hmax node' (full_chain peer') Hin' Hget' Hlt'). simpl in Hmax. lia.
    + lia.
  - rewrite (Hsame eq_refl). split; [left; reflexivity|]. split; [lia|].
    intros node peer Hin Hget.
    destruct (decide (length (chain self) < length (chain peer))%nat) as [Hlt|Hge];
      [|lia].
    assert (false = true) as Habs; [|discriminate].
    apply Hiff'. exists node, peer. repeat split; assumption.
Qed.



(** ** Registering peers *)

Lemma register_node_entry (address : string) (self : Blockchain) :
  match peer_entry address with
  | Some entry => register_node address self = (Ok tt, add_node entry self)
  | None => exists e, register_node address self = (Raise e, self)
  end.
Proof.
  unfold peer_entry, register_node.
  destruct (urllib.urlparse address) as [parsed|e]; [|exists e; reflexivity].
  destruct (negb (urllib.netloc parsed =? "")%string); [reflexivity|].
  destruct (negb (urllib.path parsed =? "")%string); [reflexivity|].
  eexists. reflexivity.
Qed.

Lemma add_node_twice (a b : string) (self : Blockchain) :
  add_node b (add_node a self) = add_node a (add_node b self).
Proof.
  unfold add_node. simpl. f_equal.
  rewrite !union_assoc_L, (union_comm_L {[b]} {[a]}). reflexivity.
Qed.

Lemma add_node_again (a : string) (self : Blockchain) :
  add_node a (add_node a self) = add_node a self.
Proof.
  unfold add_node. simpl. f_equal.
  rewrite union_assoc_L, union_idemp_L. reflexivity.
Qed.

(** X14: the peers are a set and [register_node] touches nothing else.
    Registering an address leaves the chain and the pool as they are and
    removes no peer; registering it a second time changes nothing; and two
    registrations lead to the same ledger in either order. *)
Theorem register_node_set (a b : string) (self : Blockchain) :
  chain (snd (register_node a self)) = chain self /\
  current_transactions (snd (register_node a self)) = current_transactions self /\
  nodes self ⊆ nodes (snd (register_node a self)) /\
  snd (register_node a (snd (register_node a self))) = snd (register_node a self) /\
  snd (register_node b (snd (register_node a self)))
  = snd (register_node a (snd (register_node b self))).
Proof.
  pose proof (register_node_entry a) as Ha.
  pose proof (register_node_entry b) as Hb.
  destruct (peer_entry a) as [ea|].
  - rewrite (Ha self). simpl.
    split; [reflexivity|]. split; [reflexivity|].
    split; [apply union_subseteq_r|].
    split; [rewrite (Ha (add_node ea self)); simpl; apply add_node_again|].
    destruct (peer_entry b) as [eb|].
    + rewrite (Hb self), (Hb (add_node ea self)). simpl.
      rewrite (Ha (add_node eb self)). simpl. apply add_node_twice.
    + destruct (Hb self) as [e1 ->]. destruct (Hb (add_node ea self)) as [e2 ->].
      simpl. rewrite (Ha self). reflexivity.
  - destruct (Ha self) as [e0 Hraise]. rewrite Hraise. simpl.
    split; [reflexivity|]. split; [reflexivity|]. split; [reflexivity|].
    split; [rewrite Hraise; reflexivity|].
    destruct (peer_entry b) as [eb|].
    + rewrite (Hb self). simpl. destruct (Ha (add_node eb self)) as [e1 ->].
      reflexivity.
    + destruct (Hb self) as [e1 ->]. simpl. rewrite Hraise. reflexivity.
Qed.

Lemma register_each_all (addresses : list string) :
  Forall (fun a => is_Some (peer_entry a)) addresses ->
  forall self : Blockchain,
    register_each addresses self
    = (Ok tt,
       {| chain := chain self;
          current_transactions := current_transactions self;
          nodes := list_to_set (omap peer_entry addresses) ∪ nodes self |}).
Proof.
  induction 1 as [|a rest [entry Ha] _ IH]; intros self; simpl.
  - rewrite union_empty_l_L. destruct self; reflexivity.
  - unfold bind. pose proof (register_node_entry a self) as Hreg.
    rewrite Ha in Hreg. rewrite Hreg, IH, Ha. simpl. do 2 f_equal.
    rewrite (union_assoc_L (list_to_set _)), (union_comm_L (list_to_set _) {[entry]}).
    reflexivity.
Qed.

Lemma register_each_stops (pre post : list string) (bad : string) :
  Forall (fun a => is_Some (peer_entry a)) pre ->
  peer_entry bad = None ->
  forall self : Blockchain,
    exists e,
      register_each (pre ++ bad :: post) self
      = (Raise e,
         {| chain := chain self;
            current_transactions := current_transactions self;
            nodes := list_to_set (omap peer_entry pre) ∪ nodes self |}).
Proof.
  intros Hpre Hbad.
  induction Hpre as [|a rest [entry Ha] _ IH]; intros self; simpl.
  - unfold bind. pose proof (register_node_entry bad self) as Hreg.
    rewrite Hbad in Hreg. destruct Hreg as [e ->]. exists e.
    rewrite union_empty_l_L. destruct self; reflexivity.
  - unfold bind at 1. pose proof (register_node_entry a self) as Hreg.
    rewrite Ha in Hreg. rewrite Hreg. destruct (IH (add_node entry self)) as [e ->].
    exists e. rewrite Ha. simpl. do 2 f_equal.
    rewrite (union_assoc_L (list_to_set _)), (union_comm_L (list_to_set _) {[entry]}).
    reflexivity.
Qed.

(** X15: the route [/nodes/register].  Without a list it replies 400 and
    changes nothing.  With a list of addresses that [register_node] all
    accepts it replies 201 with the peer set, which has gained the entry of
    each address.  With a list that holds an address that [register_node]
    refuses, the request raises at the first such address; the addresses
    before it stay registered and those after it are not looked at. *)
Theorem register_nodes_batch (self : Blockchain) :
  register_nodes None self
  = (Ok (RegisterError "Error: Please supply a valid list of nodes", 400), self) /\
  (forall addresses : list string,
      Forall (fun a => is_Some (peer_entry a)) addresses ->
      register_nodes (Some addresses) self
      = (Ok (RegisterAdded "New nodes have been added"
               (elements (list_to_set (omap peer_entry addresses) ∪ nodes self)),
             201),
         {| chain := chain self;
            current_transactions := current_transactions self;
            nodes := list_to_set (omap peer_entry addresses) ∪ nodes self |})) /\
  (forall (pre post : list string) (bad : string),
      Forall (fun a => is_Some (peer_entry a)) pre ->
      peer_entry bad = None ->
      exists e,
        register_nodes (Some (pre ++ bad :: post)%list) self
        = (Raise e,
           {| chain := chain self;
              current_transactions := current_transactions self;
              nodes := list_to_set (omap peer_entry pre) ∪ nodes self |})).
Proof.
  split; [reflexivity|]. split.
  - intros addresses Hall. unfold register_nodes, bind, get, ret.
    rewrite (register_each_all addresses Hall self). reflexivity.
  - intros pre post bad Hpre Hbad. unfold register_nodes, bind.
    destruct (register_each_stops pre post bad Hpre Hbad self) as [e ->].
    exists e. reflexivity.
Qed.

(** ** URLs with a scheme *)

Lemma remove_unsafe_app (a b : string) :
  urllib.remove_unsafe (a ++ b) = urllib.remove_unsafe a ++ urllib.remove_unsafe b.
Proof.
  induction a as [|c a IH]; simpl; [reflexivity|].
  destruct ((urllib.code c =? 9) || (urllib.code c =? 10) || (urllib.code c =? 13))%nat;
    simpl; rewrite IH; reflexivity.
Qed.

Lemma append_nil_l (s : string) : EmptyString ++ s = s.
Proof. reflexivity. Qed.

Lemma append_cons (c : ascii) (a b : string) : String c a ++ b = String c (a ++ b).
Proof. reflexivity. Qed.

Lemma clean_host_facts (host : string) :
  urllib.all_chars (fun c => negb (netloc_breaker c)) host = true ->
  urllib.remove_unsafe host = host /\
  urllib.contains "[" host = false /\
  urllib.contains "]" host = false /\
  forall rest, ends_netloc rest = true ->
    urllib.splitnetloc (host ++ rest) = (host, rest).
Proof.
  induction host as [|c host IH];
    cbn [urllib.all_chars urllib.remove_unsafe urllib.contains urllib.splitnetloc
         String.append].
  - intros _. repeat split. intros rest Hrest. rewrite append_nil_l.
    destruct rest as [|d rest]; [reflexivity|].
    cbn [ends_netloc urllib.splitnetloc] in Hrest |- *.
    rewrite Hrest. reflexivity.
  - intros Hall. apply andb_true_iff in Hall as [Hc Hall].
    destruct (IH Hall) as (Hru & Hopen & Hclose & Hsplit).
    unfold netloc_breaker in Hc. apply negb_true_iff in Hc.
    apply orb_false_iff in Hc as [Hdelim Hunsafe].
    apply orb_false_iff in Hdelim as [Hdelim Hcl].
    apply orb_false_iff in Hdelim as [Hdelim Hop].
    rewrite Hunsafe, Hru.
    rewrite (Ascii.eqb_sym "[" c), Hop, (Ascii.eqb_sym "]" c), Hcl, Hopen, Hclose.
    repeat split. intros rest Hrest. rewrite append_cons.
    cbn [urllib.splitnetloc]. rewrite Hdelim, (Hsplit rest Hrest). reflexivity.
Qed.

Lemma remove_unsafe_ends_netloc (rest : string) :
  ends_netloc rest = true -> ends_netloc (urllib.remove_unsafe rest) = true.
Proof.
  destruct rest as [|c rest]; simpl; [reflexivity|]. intros Hc.
  apply orb_true_iff in Hc as [Hc|Hc]; [apply orb_true_iff in Hc as [Hc|Hc]|];
    apply Ascii.eqb_eq in Hc; subst c; reflexivity.
Qed.

(** The parse of a URL once its scheme is split off, when a network
    location follows. *)
Lemma urlparse_netloc (address scheme host rest : string) :
  urllib.split_scheme (urllib.remove_unsafe (urllib.lstrip address))
  = (scheme, String "/" (String "/" (host ++ rest))) ->
  urllib.all_chars (fun c => negb (netloc_breaker c)) host = true ->
  ends_netloc rest = true ->
  exists parsed,
    urllib.urlparse address = Ok parsed /\ urllib.netloc parsed = host.
Proof.
  intros Hscheme Hclean Hrest.
  destruct (clean_host_facts host Hclean) as (_ & Hopen & Hclose & Hsplit).
  unfold urllib.urlparse. rewrite Hscheme, (Hsplit rest Hrest), Hopen, Hclose.
  simpl.
  destruct (urllib.split_first "#" rest) as [[u f]|];
    [destruct (urllib.split_first "?" u) as [[u' q]|]
    |destruct (urllib.split_first "?" rest) as [[u' q]|]];
    match goal with
    | |- context [if ?c then _ else _] => destruct c
    end;
    try match goal with
    | |- context [urllib.splitparams ?x] => destruct (urllib.splitparams x)
    end;
    eexists; split; reflexivity.
Qed.

(** X16: of a URL with the scheme [http] or [https], [register_node] keeps
    the network location alone.  For every host that is not empty, is made
    of ASCII characters and holds none of [/ ? # [ ]], tab, line feed and
    carriage return, and whatever path, query or fragment follows it, the
    entry added is the host; so two such URLs with the same host add the
    same entry. *)
Theorem register_node_url (host rest : string) (self : Blockchain) :
  plain_host host = true ->
  ends_netloc rest = true ->
  register_node ("http://" ++ host ++ rest) self = (Ok tt, add_node host self) /\
  register_node ("https://" ++ host ++ rest) self = (Ok tt, add_node host self).
Proof.
  intros Hhost Hrest. unfold plain_host in Hhost.
  apply andb_true_iff in Hhost as [Hhost Hclean].
  apply andb_true_iff in Hhost as [Hne _].
  destruct (clean_host_facts host Hclean) as (Hru & _).
  pose proof (remove_unsafe_ends_netloc rest Hrest) as Hrest'.
  assert (Hreg : forall address,
            (exists parsed, urllib.urlparse address = Ok parsed /\
                            urllib.netloc parsed = host) ->
            register_node address self = (Ok tt, add_node host self)).
  { intros address (parsed & Hparse & Hnetloc).
    rewrite (register_node_spec address parsed self Hparse), Hnetloc, Hne.
    reflexivity. }
  split; apply Hreg.
  - apply (urlparse_netloc _ "http" host (urllib.remove_unsafe rest));
      [|exact Hclean|exact Hrest'].
    rewrite !append_cons, append_nil_l. cbn [urllib.lstrip urllib.remove_unsafe].
    simpl. rewrite remove_unsafe_app, Hru. reflexivity.
  - apply (urlparse_netloc _ "https" host (urllib.remove_unsafe rest));
      [|exact Hclean|exact Hrest'].
    rewrite !append_cons, append_nil_l. cbn [urllib.lstrip urllib.remove_unsafe].
    simpl. rewrite remove_unsafe_app, Hru. reflexivity.
Qed.

(** ** The text that [valid_proof] digests *)

Lemma append_assoc (a b c : string) : (a ++ b) ++ c = a ++ (b ++ c).
Proof.
  induction a as [|x a IH]; [reflexivity|].
  rewrite !append_cons, IH. reflexivity.
Qed.

Lemma string_of_uint_revapp (l : Decimal.uint) :
  forall acc : Decimal.uint,
    NilEmpty.string_of_uint (Decimal.revapp l acc)
    = NilEmpty.string_of_uint (Decimal.revapp l Decimal.Nil)
      ++ NilEmpty.string_of_uint acc.
Proof.
  induction l as [|l IH|l IH|l IH|l IH|l IH|l IH|l IH|l IH|l IH|l IH];
    intros acc; [reflexivity|..];
    cbn [Decimal.revapp];
    rewrite (IH (_ acc)), (IH (_ Decimal.Nil)); cbn [NilEmpty.string_of_uint];
    rewrite append_assoc; reflexivity.
Qed.

Lemma str_of_int_pos (q : positive) :
  str_of_int (Zpos q)
  = NilEmpty.string_of_uint (Decimal.rev (DecimalPos.Unsigned.to_lu (Npos q))).
Proof.
  unfold str_of_int, NilZero.string_of_int, NilZero.string_of_uint. simpl.
  pose proof (DecimalPos.Unsigned.to_uint_nonnil q) as Hnn.
  unfold Pos.to_uint in *.
  destruct (Decimal.rev (Pos.to_little_uint q)); [contradiction|reflexivity..].
Qed.

Lemma to_lu_digits (p : positive) :
  DecimalPos.Unsigned.to_lu (10 * Npos p + 0)
  = Decimal.D0 (DecimalPos.Unsigned.to_lu (Npos p)) /\
  DecimalPos.Unsigned.to_lu (10 * Npos p + 1)
  = Decimal.D1 (DecimalPos.Unsigned.to_lu (Npos p)) /\
  DecimalPos.Unsigned.to_lu (10 * Npos p + 2)
  = Decimal.D2 (DecimalPos.Unsigned.to_lu (Npos p)) /\
  DecimalPos.Unsigned.to_lu (10 * Npos p + 3)
  = Decimal.D3 (DecimalPos.Unsigned.to_lu (Npos p)) /\
  DecimalPos.Unsigned.to_lu (10 * Npos p + 4)
  = Decimal.D4 (DecimalPos.Unsigned.to_lu (Npos p)) /\
  DecimalPos.Unsigned.to_lu (10 * Npos p + 5)
  = Decimal.D5 (DecimalPos.Unsigned.to_lu (Npos p)) /\
  DecimalPos.Unsigned.to_lu (10 * Npos p + 6)
  = Decimal.D6 (DecimalPos.Unsigned.to_lu (Npos p)) /\
  DecimalPos.Unsigned.to_lu (10 * Npos p + 7)
  = Decimal.D7 (DecimalPos.Unsigned.to_lu (Npos p)) /\
  DecimalPos.Unsigned.to_lu (10 * Npos p + 8)
  = Decimal.D8 (DecimalPos.Unsigned.to_lu (Npos p)) /\
  DecimalPos.Unsigned.to_lu (10 * Npos p + 9)
  = Decimal.D9 (DecimalPos.Unsigned.to_lu (Npos p)).
Proof.
  assert (H0 : DecimalPos.Unsigned.to_lu (10 * Npos p + 0)
               = Decimal.D0 (DecimalPos.Unsigned.to_lu (Npos p)))
    by (rewrite N.add_0_r; apply DecimalPos.Unsigned.to_ldec_tenfold).
  assert (Hnext : forall (k : N) (d : Decimal.uint),
            DecimalPos.Unsigned.to_lu (10 * Npos p + k) = d ->
            DecimalPos.Unsigned.to_lu (10 * Npos p + (k + 1))
            = Decimal.Little.succ d).
  { intros k d <-. rewrite N.add_assoc, N.add_1_r.
    apply DecimalPos.Unsigned.to_lu_succ. }
  pose proof (Hnext 0%N _ H0) as H1. pose proof (Hnext 1%N _ H1) as H2.
  pose proof (Hnext 2%N _ H2) as H3. pose proof (Hnext 3%N _ H3) as H4.
  pose proof (Hnext 4%N _ H4) as H5. pose proof (Hnext 5%N _ H5) as H6.
  pose proof (Hnext 6%N _ H6) as H7. pose proof (Hnext 7%N _ H7) as H8.
  pose proof (Hnext 8%N _ H8) as H9.
  repeat split; assumption.
Qed.

Lemma str_of_int_digit (p : positive) (k : N) :
  (k <= 9)%N ->
  str_of_int (Z.of_N (10 * Npos p + k))
  = str_of_int (Zpos p) ++ str_of_int (Z.of_N k).
Proof.
  intros Hk.
  destruct (to_lu_digits p) as (H0 & H1 & H2 & H3 & H4 & H5 & H6 & H7 & H8 & H9).
  assert (Hcases : (k = 0 \/ k = 1 \/ k = 2 \/ k = 3 \/ k = 4 \/ k = 5 \/ k = 6
                    \/ k = 7 \/ k = 8 \/ k = 9)%N) by lia.
  destruct (10 * N.pos p + k)%N as [|q] eqn:Hq; [lia|].
  change (Z.of_N (N.pos q)) with (Zpos q).
  rewrite (str_of_int_pos q), (str_of_int_pos p), <- Hq.
  unfold Decimal.rev.
  repeat destruct Hcases as [->|Hcases]; try subst k;
    first [rewrite H0 | rewrite H1 | rewrite H2 | rewrite H3 | rewrite H4
          | rewrite H5 | rewrite H6 | rewrite H7 | rewrite H8 | rewrite H9];
    cbn [Decimal.revapp]; rewrite string_of_uint_revapp; reflexivity.
Qed.

Lemma str_of_int_append_digit (a d : Z) :
  0 < a -> 0 <= d <= 9 ->
  str_of_int (10 * a + d) = str_of_int a ++ str_of_int d.
Proof.
  intros Ha Hd. destruct a as [|p|p]; [lia| |lia].
  replace (10 * Z.pos p + d) with (Z.of_N (10 * Npos p + Z.to_N d)) by lia.
  rewrite (str_of_int_digit p (Z.to_N d)) by lia.
  rewrite Z2N.id by lia. reflexivity.
Qed.

(** X17: [valid_proof] digests the digits of [last_proof] and [proof] put
    side by side, with nothing between them, so it cannot tell where one
    number ends and the other begins: a last digit of [last_proof] may be
    moved to the front of a one-digit [proof] without changing the
    verdict. *)
Theorem valid_proof_digits (a d p : Z) (last_hash : string) :
  0 < a -> 1 <= d <= 9 -> 0 <= p <= 9 ->
  valid_proof (10 * a + d) p last_hash = valid_proof a (10 * d + p) last_hash.
Proof.
  intros Ha Hd Hp. unfold valid_proof.
  rewrite (str_of_int_append_digit a d) by lia.
  rewrite (str_of_int_append_digit d p) by lia.
  rewrite !append_assoc. reflexivity.
Qed.

(** ** Ledgers over time *)

Lemma new_transaction_pool_grows (sender recipient : string) (amount : Z)
    (self : Blockchain) :
  current_transactions (snd (new_transaction sender recipient amount self))
  = (current_transactions self
     ++ [{| sender := sender; recipient := recipient; amount := amount |}])%list /\
  nodes (snd (new_transaction sender recipient amount self)) = nodes self.
Proof.
  unfold new_transaction, bind, get, put, ret, last_block. simpl.
  destruct (last (chain self)); split; reflexivity.
Qed.

Lemma register_node_pool (address : string) (self : Blockchain) :
  current_transactions (snd (register_node address self)) = current_transactions self /\
  nodes self ⊆ nodes (snd (register_node address self)).
Proof.
  pose proof (register_node_entry address self) as Hreg.
  destruct (peer_entry address) as [entry|].
  - rewrite Hreg. simpl. split; [reflexivity | apply union_subseteq_r].
  - destruct Hreg as [e ->]. simpl. split; reflexivity.
Qed.

(** X18: without a consensus pass the ledger only grows.  Whatever
    transactions are submitted, blocks mined and peers registered in
    between, the chain of before is a prefix of the chain of after, so no
    block is altered or removed; no peer is removed; and no pending
    transaction is lost: each is still pending or is in one of the blocks
    added since. *)
Theorem ledger_grows (self self' : Blockchain) :
  evolves self self' ->
  exists added : list Block,
    chain self' = (chain self ++ added)%list /\
    nodes self ⊆ nodes self' /\
    forall tx : Transaction,
      tx ∈ current_transactions self ->
      tx ∈ current_transactions self' \/
      exists b : Block, b ∈ added /\ tx ∈ transactions b.
Proof.
  induction 1 as [| s1 sender recipient amount _ IH | s1 s2 fuel now o _ IH Hmine
                 | s1 address _ IH].
  - exists []. split; [rewrite app_nil_r; reflexivity|]. split; [reflexivity|].
    intros tx Htx. left. exact Htx.
  - destruct IH as (added & Hchain & Hnodes & Hpool).
    destruct (new_transaction_pool_grows sender recipient amount s1) as [Hp Hn].
    exists added. rewrite new_transaction_chain, Hp, Hn.
    split; [exact Hchain|]. split; [exact Hnodes|].
    intros tx Htx. destruct (Hpool tx Htx) as [Hin|Hblock]; [|right; exact Hblock].
    left. apply elem_of_app. left. exact Hin.
  - destruct IH as (added & Hchain & Hnodes & Hpool).
    destruct (last (chain s1)) as [lb|] eqn:Hlast.
    + destruct (proof_of_work fuel lb) as [p|] eqn:Hpow.
      * rewrite (mine_spec fuel now s1 lb p Hlast Hpow) in Hmine.
        injection Hmine as _ <-. simpl.
        eexists (added ++ [_])%list. split; [rewrite Hchain, app_assoc; reflexivity|].
        split; [exact Hnodes|].
        intros tx Htx. right.
        destruct (Hpool tx Htx) as [Hin|(b & Hb & Htxb)].
        -- eexists. split; [apply elem_of_app; right; apply list_elem_of_here|].
           simpl. apply elem_of_app. left. exact Hin.
        -- exists b. split; [apply elem_of_app; left; exact Hb | exact Htxb].
      * unfold mine, last_block in Hmine. rewrite Hlast, Hpow in Hmine. discriminate.
    + unfold mine, last_block in Hmine. rewrite Hlast in Hmine.
      injection Hmine as _ <-. exists added. split; [exact Hchain|].
      split; [exact Hnodes | exact Hpool].
  - destruct IH as (added & Hchain & Hnodes & Hpool).
    destruct (register_node_pool address s1) as [Hp Hn].
    exists added. rewrite register_node_chain, Hp.
    split; [exact Hchain|]. split; [etransitivity; [exact Hnodes | exact Hn]|].
    exact Hpool.
Qed.

End Properties.

(** * The properties on the ledgers of [Demo] *)

Lemma demo_last_fresh : last (chain Demo.fresh) = Some Demo.genesis.
Proof. reflexivity. Defined.

Lemma demo_local_peer : "192.168.0.1:5000" ∈ nodes Demo.local.
Proof. apply elem_of_elements. vm_compute. apply list_elem_of_here. Defined.

Lemma demo_local2_peer : "10.0.0.1:5000" ∈ nodes Demo.local2.
Proof. apply elem_of_elements. vm_compute. apply list_elem_of_here. Defined.

Lemma demo_local_peers : nodes Demo.local <> ∅.
Proof.
  intros Hempty. pose proof demo_local_peer as Hin.
  rewrite Hempty in Hin. exact (not_elem_of_empty _ Hin).
Defined.

Lemma demo_submitted_reachable : @reachable Demo.host Demo.submitted.
Proof.
  exact (reach_new_transaction _ "carol" "alice" 7
          (reach_new_transaction _ "bob" "carol" 2
            (reach_new_transaction _ "alice" "bob" 5
              (reach_init 1700000000.25%float)))).
Defined.

Lemma demo_mined_reachable : @reachable Demo.host Demo.mined.
Proof.
  apply (@reach_mine Demo.host Demo.submitted Demo.mined 100 1700000060.5%float
           (match @mine Demo.host 100 1700000060.5%float Demo.submitted with
            | Some (o, _) => o
            | None => Raise IndexError
            end)).
  - exact demo_submitted_reachable.
  - vm_compute. reflexivity.
Defined.

(** On the fresh ledger of [Demo] the search ends with 69 after seventy
    evaluations of the loop condition; 69 is accepted, no smaller
    non-negative integer is. *)
Lemma valid_proof_proof_of_work_demo :
  @proof_of_work Demo.host 70 Demo.genesis = Some 69 /\
  @valid_proof Demo.host 100 69 (@hash Demo.host Demo.genesis) = true /\
  forall q, 0 <= q < 69 ->
    @valid_proof Demo.host 100 q (@hash Demo.host Demo.genesis) = false.
Proof.
  assert (Hpow : @proof_of_work Demo.host 70 Demo.genesis = Some 69)
    by (vm_compute; reflexivity).
  split; [exact Hpow|].
  destruct (proj1 (proj2 (@valid_proof_proof_of_work Demo.host)) 70%nat Demo.genesis 69 Hpow)
    as (Hvalid & _ & Hleast).
  split; [exact Hvalid | exact Hleast].
Defined.

(** The ledger of [Demo] after one [/mine] request is reachable, and its
    second block is linked to the genesis block. *)
Lemma chain_invariant_demo :
  @reachable Demo.host Demo.mined /\
  chain Demo.mined <> [] /\
  forall prev cur : Block,
    chain Demo.mined !! 0%nat = Some prev ->
    chain Demo.mined !! 1%nat = Some cur ->
    previous_hash cur = PStr (@hash Demo.host prev) /\
    @valid_proof Demo.host (proof prev) (proof cur) (@hash Demo.host prev) = true.
Proof.
  split; [exact demo_mined_reachable|].
  destruct (@chain_invariant Demo.host Demo.mined demo_mined_reachable) as [Hne Hl].
  split; [exact Hne|].
  intros prev cur Hp Hc. exact (Hl 1%nat prev cur (Nat.lt_0_succ 0) Hp Hc).
Defined.

(** Three transactions submitted to the fresh ledger of [Demo], then a
    [/mine] request: the forged block holds the three and the reward, and
    the pool is empty. *)
Lemma new_block_drains_pool_demo :
  exists (block : Block) (self' : Blockchain),
    @mine Demo.host 100 1700000060.5%float Demo.submitted = Some (Ok block, self') /\
    transactions block
    = [Demo.tx1; Demo.tx2; Demo.tx3;
       {| sender := "0"; recipient := @node_identifier Demo.host; amount := 1 |}] /\
    current_transactions self' = [].
Proof.
  destruct (proj2 (@new_block_drains_pool Demo.host Demo.fresh Demo.genesis demo_last_fresh)
              Demo.tx1 Demo.tx2 Demo.tx3 100%nat 1700000060.5%float 69)
    as (block & self' & Hmine & Htx & _ & _ & _ & Hpool).
  - reflexivity.
  - vm_compute. reflexivity.
  - exists block, self'. split; [exact Hmine|]. split; [exact Htx | exact Hpool].
Defined.


(** A ledger whose first peer cannot be reached: the pass raises.  A ledger
    whose peer answers 503: the pass returns false and changes nothing. *)
Lemma resolve_conflicts_peer_failures_demo :
  (exists e, @resolve_conflicts Demo.host Demo.one_down Demo.local2
             = (Raise e, Demo.local2)) /\
  @resolve_conflicts Demo.host (Demo.serves Demo.unavailable_response) Demo.local
  = (Ok false, Demo.local).
Proof.
  split.
  - apply (proj2 (proj2 (@resolve_conflicts_peer_failures Demo.host Demo.one_down))
             Demo.local2 "10.0.0.1:5000" ConnectionError).
    + exact demo_local2_peer.
    + reflexivity.
  - apply (proj1 (proj2 (@resolve_conflicts_peer_failures Demo.host
                           (Demo.serves Demo.unavailable_response)))).
    intros node _. exists Demo.unavailable_response.
    split; [reflexivity | discriminate].
Defined.

(** A ledger of two blocks and a peer that serves the genesis block alone
    while reporting 99 blocks: the pass returns true and the ledger is left
    with one block. *)
Lemma resolve_conflicts_reported_length_demo :
  nodes Demo.local <> ∅ /\
  @resolve_conflicts Demo.host (Demo.serves Demo.overstated_response) Demo.local
  = (Ok true, set_chain [Demo.genesis] Demo.local) /\
  (length [Demo.genesis] < length (chain Demo.local))%nat.
Proof.
  split; [exact demo_local_peers|]. split.
  - apply (proj1 (@resolve_conflicts_reported_length Demo.host Demo.local demo_local_peers)
             Demo.overstated_response).
    + reflexivity.
    + reflexivity.
    + vm_compute. reflexivity.
  - vm_compute. apply le_n.
Defined.

(** ** Where the code departs from the specification *)


(** C5 as stated fails: given the empty string as [previous_hash],
    [new_block] does not store it; the block carries the hash of the last
    block. *)
Lemma new_block_empty_previous_hash :
  exists (block : Block) (self' : Blockchain),
    @new_block Demo.host 1700000060.5%float 7 (Some (PStr EmptyString)) Demo.fresh
    = (Ok block, self') /\
    previous_hash block = PStr (@hash Demo.host Demo.genesis) /\
    previous_hash block <> PStr EmptyString.
Proof.
  eexists. eexists. split; [vm_compute; reflexivity|].
  split; [vm_compute; reflexivity | vm_compute; discriminate].
Qed.

(** C6 as stated fails: with two peers of which the first cannot be reached
    and the second serves a longer valid chain, the pass does not return; it
    raises [ConnectionError] and the chain of the second peer is not
    adopted. *)
Lemma resolve_conflicts_transport_failure :
  elements (nodes Demo.local2) = ["10.0.0.1:5000"; "10.0.0.2:5000"] /\
  Demo.one_down (chain_url "10.0.0.1:5000") = Raise ConnectionError /\
  Demo.one_down (chain_url "10.0.0.2:5000") = Ok Demo.longer_response /\
  @qualifies Demo.host Demo.local2 Demo.longer_response /\
  @resolve_conflicts Demo.host Demo.one_down Demo.local2
  = (Raise ConnectionError, Demo.local2).
Proof.
  split; [vm_compute; reflexivity|]. split; [reflexivity|]. split; [reflexivity|].
  split.
  - split; [reflexivity|]. split; [reflexivity | vm_compute; reflexivity].
  - vm_compute. reflexivity.
Qed.

(** C7 as stated fails: [not a url] parses to a path, so [register_node]
    does not fail; it adds the text to the peer set. *)
Lemma register_node_not_a_url :
  urllib.path <$> (match urllib.urlparse "not a url" with
                   | Ok parsed => Some parsed
                   | Raise _ => None
                   end) = Some "not a url" /\
  register_node "not a url" Demo.fresh = (Ok tt, add_node "not a url" Demo.fresh) /\
  elements (nodes (snd (register_node "not a url" Demo.fresh))) = ["not a url"].
Proof.
  split; [reflexivity|]. split; [reflexivity | vm_compute; reflexivity].
Qed.

(** * The further properties on the ledgers of [Demo] *)

Lemma demo_mined_locally : @mined_locally Demo.host Demo.mined.
Proof.
  apply (@local_mine Demo.host Demo.submitted Demo.mined 100 1700000060.5%float
           (match @mine Demo.host 100 1700000060.5%float Demo.submitted with
            | Some (o, _) => o
            | None => Raise IndexError
            end)).
  - exact (local_new_transaction _ "carol" "alice" 7
            (local_new_transaction _ "bob" "carol" 2
              (local_new_transaction _ "alice" "bob" 5
                (local_init 1700000000.25%float)))).
  - vm_compute. reflexivity.
Defined.

(** On the mined ledger of [Demo] the second block has index 2. *)
Lemma announced_index_demo :
  @mined_locally Demo.host Demo.mined /\
  forall b : Block, chain Demo.mined !! 1%nat = Some b -> index b = 2.
Proof.
  split; [exact demo_mined_locally|].
  intros b Hb.
  exact (proj1 (@announced_index Demo.host Demo.mined demo_mined_locally) 1%nat b Hb).
Defined.

(** On the mined ledger of [Demo] the second block ends with the reward. *)
Lemma mined_blocks_reward_demo :
  @mined_locally Demo.host Demo.mined /\
  forall b : Block,
    chain Demo.mined !! 1%nat = Some b ->
    exists txs : list Transaction,
      transactions b
      = (txs ++ [{| sender := "0"; recipient := @node_identifier Demo.host;
                    amount := 1 |}])%list.
Proof.
  split; [exact demo_mined_locally|].
  intros b Hb.
  exact (proj2 (@mined_blocks_reward Demo.host Demo.mined demo_mined_locally)
           1%nat b (Nat.lt_0_succ 0) Hb).
Defined.

(** The mined ledger of [Demo] passes [valid_chain]. *)
Lemma own_chain_valid_demo :
  @reachable Demo.host Demo.mined /\
  @valid_chain Demo.host (chain Demo.mined) = Ok true.
Proof.
  split; [exact demo_mined_reachable|].
  exact (proj1 (@own_chain_valid Demo.host Demo.mined demo_mined_reachable)).
Defined.

(** The five blocks of the peer of [Demo], cut after the second. *)
Lemma valid_chain_app_demo :
  @valid_chain Demo.host (take 2 (chain Demo.peer)) = Ok true /\
  @valid_chain Demo.host (drop 2 (chain Demo.peer)) = Ok true.
Proof.
  assert (Hv : @valid_chain Demo.host (take 2 (chain Demo.peer) ++ drop 2 (chain Demo.peer))
               = Ok true) by (vm_compute; reflexivity).
  destruct (chain Demo.mined !! 1%nat) as [b1|] eqn:Hb1; [|vm_compute in Hb1; discriminate].
  destruct (chain Demo.peer !! 2%nat) as [b2|] eqn:Hb2; [|vm_compute in Hb2; discriminate].
  apply (@valid_chain_app Demo.host (take 2 (chain Demo.peer)) (drop 2 (chain Demo.peer))
           b1 b2) in Hv.
  - destruct Hv as (H1 & H2 & _). split; [exact H1 | exact H2].
  - vm_compute in Hb1 |- *. exact Hb1.
  - vm_compute in Hb2 |- *. exact Hb2.
Defined.

(** A block appended to the fresh ledger of [Demo] with the proof 5, which
    [valid_proof] does not accept: the chain no longer passes. *)
Lemma new_block_unchecked_demo :
  exists (block : Block) (self' : Blockchain),
    @new_block Demo.host 1700000060.5%float 5 None Demo.fresh = (Ok block, self') /\
    @valid_chain Demo.host (chain self') <> Ok true.
Proof.
  destruct (@new_block_unchecked Demo.host 1700000060.5%float 5 None Demo.fresh
              Demo.genesis demo_last_fresh) as (block & self' & Hnew & Hiff).
  exists block, self'. split; [exact Hnew|].
  intros Hv. apply Hiff in Hv. destruct Hv as (_ & _ & Hproof).
  vm_compute in Hproof. discriminate.
Defined.

(** The mined chain of [Demo] with its second block replaced by one that
    pays mallory: the verdict of [valid_chain] is the same. *)
Lemma last_block_payload_demo :
  @valid_chain Demo.host ([Demo.genesis] ++ [Demo.forged]) = Ok true.
Proof.
  destruct (chain Demo.mined !! 1%nat) as [b1|] eqn:Hb1; [|vm_compute in Hb1; discriminate].
  rewrite (@last_block_payload Demo.host [Demo.genesis] b1 Demo.forged).
  - vm_compute in Hb1. injection Hb1 as <-. vm_compute. reflexivity.
  - vm_compute in Hb1. injection Hb1 as <-. reflexivity.
  - vm_compute in Hb1. injection Hb1 as <-. reflexivity.
Defined.

(** Two peers that both report five blocks: the chain of the peer that is
    visited first is the one adopted. *)
Lemma resolve_conflicts_first_wins_demo :
  @resolve_conflicts Demo.host Demo.two_up Demo.local2
  = (Ok true, set_chain (chain Demo.peer) Demo.local2) /\
  exists (pre post : list string) (node : string) (r : Response),
    elements (nodes Demo.local2) = (pre ++ node :: post)%list /\
    Demo.two_up (chain_url node) = Ok r /\
    chain Demo.peer = json_chain r.
Proof.
  assert (Hrc : @resolve_conflicts Demo.host Demo.two_up Demo.local2
                = (Ok true, set_chain (chain Demo.peer) Demo.local2))
    by (vm_compute; reflexivity).
  split; [exact Hrc|].
  destruct (@resolve_conflicts_first_wins Demo.host Demo.two_up Demo.local2 _ Hrc)
    as (pre & post & node & r & Hel & Hget & _ & Hchain & _).
  exists pre, post, node, r. split; [exact Hel|]. split; [exact Hget | exact Hchain].
Defined.

(** A ledger of two blocks whose peer serves its own five blocks. *)
Lemma resolve_conflicts_honest_peers_demo :
  exists (replaced : bool) (self' : Blockchain),
    @resolve_conflicts Demo.host (Demo.serves (@full_chain Demo.peer)) Demo.local
    = (Ok replaced, self') /\
    (length (chain Demo.peer) <= length (chain self'))%nat.
Proof.
  destruct (@resolve_conflicts_honest_peers Demo.host
              (Demo.serves (@full_chain Demo.peer)) Demo.local)
    as (replaced & self' & Hrc & _ & _ & _ & Hmax).
  - intros node _. exists Demo.peer. split; [reflexivity | vm_compute; reflexivity].
  - exists replaced, self'. split; [exact Hrc|].
    exact (Hmax "192.168.0.1:5000" Demo.peer demo_local_peer eq_refl).
Defined.


(** Two spellings of one peer. *)
Lemma register_node_url_demo :
  register_node "http://192.168.0.1:5000/chain?x=1#top" Demo.fresh
  = (Ok tt, add_node "192.168.0.1:5000" Demo.fresh) /\
  register_node "https://192.168.0.1:5000" Demo.fresh
  = (Ok tt, add_node "192.168.0.1:5000" Demo.fresh).
Proof.
  split.
  - exact (proj1 (register_node_url "192.168.0.1:5000" "/chain?x=1#top" Demo.fresh
                    eq_refl eq_refl)).
  - exact (proj2 (register_node_url "192.168.0.1:5000" EmptyString Demo.fresh
                    eq_refl eq_refl)).
Defined.

(** The digits 1, 2, 3 read as 12 and 3 or as 1 and 23. *)
Lemma valid_proof_digits_demo :
  @valid_proof Demo.host 12 3 (@hash Demo.host Demo.genesis)
  = @valid_proof Demo.host 1 23 (@hash Demo.host Demo.genesis).
Proof.
  apply (@valid_proof_digits Demo.host 1 2 3 (@hash Demo.host Demo.genesis)); lia.
Defined.

(** From the ledger of [Demo] with three pending transactions to the mined
    one: the first of the three is in the block added. *)
Lemma ledger_grows_demo :
  @evolves Demo.host Demo.submitted Demo.mined /\
  exists added : list Block,
    chain Demo.mined = (chain Demo.submitted ++ added)%list /\
    exists b : Block, b ∈ added /\ Demo.tx1 ∈ transactions b.
Proof.
  assert (Hev : @evolves Demo.host Demo.submitted Demo.mined).
  { apply (@evolves_mine Demo.host Demo.submitted Demo.submitted Demo.mined 100
             1700000060.5%float
             (match @mine Demo.host 100 1700000060.5%float Demo.submitted with
              | Some (o, _) => o
              | None => Raise IndexError
              end)).
    - apply evolves_here.
    - vm_compute. reflexivity. }
  split; [exact Hev|].
  destruct (@ledger_grows Demo.host Demo.submitted Demo.mined Hev)
    as (added & Hchain & _ & Hpool).
  exists added. split; [exact Hchain|].
  destruct (Hpool Demo.tx1) as [Hin|Hblock].
  - apply list_elem_of_here.
  - vm_compute in Hin. apply elem_of_nil in Hin. contradiction.
  - exact Hblock.
Defined.
